(** * QueueManager (src/queue.js): a shallow embedding and its properties

    The scheduler of the image-classification service is a single
    JavaScript class, [QueueManager].  Its methods run to completion on one
    thread; the only suspension point is the [await item.task()] inside
    [processQueue].  The embedding therefore follows the event loop: the
    state is the object's fields together with the part of the runtime the
    methods talk to (promises, armed timers, suspended continuations), and
    an execution is a sequence of events, each of which runs one
    uninterrupted piece of the source.

    Numbers are modelled as [Z]: counters, priorities and limits are
    integers in the source's intended use.  Wall-clock time is not
    modelled; a timer may fire at any point after it is armed, so every
    real execution is one of the model's event sequences.  A task is
    opaque: calling it either throws or returns something to await, and
    does not call back into the scheduler before it returns. *)

From Stdlib Require Import QArith.
From stdpp Require Import base numbers list gmap sets strings sorting.

Open Scope Z_scope.
#[local] Set Warnings "-clear-no-such-hyp".

(** ** Values, promises, tasks *)

(** What a task's promise can be fulfilled with: the payload is opaque to
    the scheduler; [undefined] is what [resolve()] without argument gives. *)
Inductive value :=
  | undefined
  | payload (v : Z).

(** An [Error] object, identified by its message. *)
Definition error := string.

Inductive outcome :=
  | Fulfilled (v : value)
  | Rejected (e : error).

(** What the call [item.task()] does before control returns to
    [processQueue]: it throws, or it hands back something to await. *)
Inductive Task :=
  | Throws (e : error)
  | Awaits.

(** [new Error('Task timeout')], [new Error('Queue cleared')],
    [new Error('Queue idle timeout')]. *)
Definition Task_timeout : error := "Task timeout".
Definition Queue_cleared : error := "Queue cleared".
Definition Queue_idle_timeout : error := "Queue idle timeout".

(** [x || d] on an optional number: [undefined] and [0] are falsy. *)
Definition or_default (x : option Z) (d : Z) : Z :=
  match x with
  | Some v => if v =? 0 then d else v
  | None => d
  end.

Record Config := {
  cfg_concurrency : option Z;
  cfg_timeout : option Z
}.

Record Options := {
  opt_timeout : option Z;
  opt_priority : option Z
}.

(** ** The object's fields *)

Record Stats := {
  total : Z;
  completed : Z;
  failed : Z;
  pending : Z
}.

(** A queue item.  [resolve] and [reject] are the two handles of the promise
    created in [addTask]; the promise is named by [item_id].  [startTime] is
    written once and never read, and is left out. *)
Record QueueItem := {
  item_id : nat;
  task : Task;
  item_timeout : Z;
  priority : Z
}.

Record State := {
  (* fields of the QueueManager object *)
  concurrency : Z;
  timeout : Z;
  queue : list QueueItem;
  running : Z;
  stats : Stats;
  (* promises returned by addTask, armed task timers, suspended awaits *)
  next_id : nat;
  promises : gmap nat outcome;
  timers : gset nat;
  awaiting : gset nat;
  (* promises of onIdle, armed checkIdle polls, races of onIdleWithTimeout *)
  next_waiter : nat;
  idle_promises : gmap nat outcome;
  idle_polls : gset nat;
  races : gset nat;
  race_promises : gmap nat outcome;
  race_timers : gset nat
}.

Definition set_queue (q : list QueueItem) (st : State) : State :=
  {| concurrency := concurrency st; timeout := timeout st; queue := q;
     running := running st; stats := stats st; next_id := next_id st;
     promises := promises st; timers := timers st; awaiting := awaiting st;
     next_waiter := next_waiter st; idle_promises := idle_promises st;
     idle_polls := idle_polls st; races := races st;
     race_promises := race_promises st; race_timers := race_timers st |}.

Definition set_running (r : Z) (st : State) : State :=
  {| concurrency := concurrency st; timeout := timeout st; queue := queue st;
     running := r; stats := stats st; next_id := next_id st;
     promises := promises st; timers := timers st; awaiting := awaiting st;
     next_waiter := next_waiter st; idle_promises := idle_promises st;
     idle_polls := idle_polls st; races := races st;
     race_promises := race_promises st; race_timers := race_timers st |}.

Definition set_stats (s : Stats) (st : State) : State :=
  {| concurrency := concurrency st; timeout := timeout st; queue := queue st;
     running := running st; stats := s; next_id := next_id st;
     promises := promises st; timers := timers st; awaiting := awaiting st;
     next_waiter := next_waiter st; idle_promises := idle_promises st;
     idle_polls := idle_polls st; races := races st;
     race_promises := race_promises st; race_timers := race_timers st |}.

Definition set_next_id (n : nat) (st : State) : State :=
  {| concurrency := concurrency st; timeout := timeout st; queue := queue st;
     running := running st; stats := stats st; next_id := n;
     promises := promises st; timers := timers st; awaiting := awaiting st;
     next_waiter := next_waiter st; idle_promises := idle_promises st;
     idle_polls := idle_polls st; races := races st;
     race_promises := race_promises st; race_timers := race_timers st |}.

Definition set_promises (p : gmap nat outcome) (st : State) : State :=
  {| concurrency := concurrency st; timeout := timeout st; queue := queue st;
     running := running st; stats := stats st; next_id := next_id st;
     promises := p; timers := timers st; awaiting := awaiting st;
     next_waiter := next_waiter st; idle_promises := idle_promises st;
     idle_polls := idle_polls st; races := races st;
     race_promises := race_promises st; race_timers := race_timers st |}.

Definition set_timers (t : gset nat) (st : State) : State :=
  {| concurrency := concurrency st; timeout := timeout st; queue := queue st;
     running := running st; stats := stats st; next_id := next_id st;
     promises := promises st; timers := t; awaiting := awaiting st;
     next_waiter := next_waiter st; idle_promises := idle_promises st;
     idle_polls := idle_polls st; races := races st;
     race_promises := race_promises st; race_timers := race_timers st |}.

Definition set_awaiting (a : gset nat) (st : State) : State :=
  {| concurrency := concurrency st; timeout := timeout st; queue := queue st;
     running := running st; stats := stats st; next_id := next_id st;
     promises := promises st; timers := timers st; awaiting := a;
     next_waiter := next_waiter st; idle_promises := idle_promises st;
     idle_polls := idle_polls st; races := races st;
     race_promises := race_promises st; race_timers := race_timers st |}.

Definition set_next_waiter (n : nat) (st : State) : State :=
  {| concurrency := concurrency st; timeout := timeout st; queue := queue st;
     running := running st; stats := stats st; next_id := next_id st;
     promises := promises st; timers := timers st; awaiting := awaiting st;
     next_waiter := n; idle_promises := idle_promises st;
     idle_polls := idle_polls st; races := races st;
     race_promises := race_promises st; race_timers := race_timers st |}.

Definition set_idle_promises (p : gmap nat outcome) (st : State) : State :=
  {| concurrency := concurrency st; timeout := timeout st; queue := queue st;
     running := running st; stats := stats st; next_id := next_id st;
     promises := promises st; timers := timers st; awaiting := awaiting st;
     next_waiter := next_waiter st; idle_promises := p;
     idle_polls := idle_polls st; races := races st;
     race_promises := race_promises st; race_timers := race_timers st |}.

Definition set_idle_polls (s : gset nat) (st : State) : State :=
  {| concurrency := concurrency st; timeout := timeout st; queue := queue st;
     running := running st; stats := stats st; next_id := next_id st;
     promises := promises st; timers := timers st; awaiting := awaiting st;
     next_waiter := next_waiter st; idle_promises := idle_promises st;
     idle_polls := s; races := races st;
     race_promises := race_promises st; race_timers := race_timers st |}.

Definition set_races (s : gset nat) (st : State) : State :=
  {| concurrency := concurrency st; timeout := timeout st; queue := queue st;
     running := running st; stats := stats st; next_id := next_id st;
     promises := promises st; timers := timers st; awaiting := awaiting st;
     next_waiter := next_waiter st; idle_promises := idle_promises st;
     idle_polls := idle_polls st; races := s;
     race_promises := race_promises st; race_timers := race_timers st |}.

Definition set_race_promises (p : gmap nat outcome) (st : State) : State :=
  {| concurrency := concurrency st; timeout := timeout st; queue := queue st;
     running := running st; stats := stats st; next_id := next_id st;
     promises := promises st; timers := timers st; awaiting := awaiting st;
     next_waiter := next_waiter st; idle_promises := idle_promises st;
     idle_polls := idle_polls st; races := races st;
     race_promises := p; race_timers := race_timers st |}.

Definition set_race_timers (s : gset nat) (st : State) : State :=
  {| concurrency := concurrency st; timeout := timeout st; queue := queue st;
     running := running st; stats := stats st; next_id := next_id st;
     promises := promises st; timers := timers st; awaiting := awaiting st;
     next_waiter := next_waiter st; idle_promises := idle_promises st;
     idle_polls := idle_polls st; races := races st;
     race_promises := race_promises st; race_timers := s |}.

(** ** The runtime's promises and [Array.prototype.sort] *)

(** Calling [resolve] or [reject] on a promise that is already settled
    does nothing. *)
Definition settle_in (i : nat) (o : outcome) (m : gmap nat outcome)
  : gmap nat outcome :=
  match m !! i with
  | Some _ => m
  | None => <[i := o]> m
  end.

(** [Array.prototype.sort(cmp)] is a stable sort: it returns the one
    permutation that is ordered by [cmp] and keeps elements that compare
    equal in their original order.  Insertion from the right computes it:
    [x], which stood before everything in [l], moves behind [y] only when
    [cmp x y > 0]. *)
Fixpoint sort_insert {A : Type} (cmp : A -> A -> Z) (x : A) (l : list A)
  : list A :=
  match l with
  | [] => [x]
  | y :: l' => if 0 <? cmp x y then y :: sort_insert cmp x l' else x :: l
  end.

Definition array_sort {A : Type} (cmp : A -> A -> Z) (l : list A) : list A :=
  foldr (sort_insert cmp) [] l.

(** [(a, b) => b.priority - a.priority] *)
Definition by_priority (a b : QueueItem) : Z := priority b - priority a.

(** ** The methods *)

Module QueueManager.

(** [constructor(config = {})] *)
Definition constructor (config : Config) : State :=
  {| concurrency := or_default (cfg_concurrency config) 5;
     timeout := or_default (cfg_timeout config) 30000;
     queue := [];
     running := 0;
     stats := {| total := 0; completed := 0; failed := 0; pending := 0 |};
     next_id := 0; promises := ∅; timers := ∅; awaiting := ∅;
     next_waiter := 0; idle_promises := ∅; idle_polls := ∅; races := ∅;
     race_promises := ∅; race_timers := ∅ |}.

Definition inc_total (s : Stats) : Stats :=
  {| total := total s + 1; completed := completed s; failed := failed s;
     pending := pending s |}.
Definition inc_completed (s : Stats) : Stats :=
  {| total := total s; completed := completed s + 1; failed := failed s;
     pending := pending s |}.
Definition inc_failed (s : Stats) : Stats :=
  {| total := total s; completed := completed s; failed := failed s + 1;
     pending := pending s |}.
Definition set_pending (p : Z) (s : Stats) : Stats :=
  {| total := total s; completed := completed s; failed := failed s;
     pending := p |}.

(** [item.resolve(v)] / [item.reject(e)] *)
Definition settle (i : nat) (o : outcome) (st : State) : State :=
  set_promises (settle_in i o (promises st)) st.

(** Lines 56-66: [this.running++; this.stats.pending--;] and the
    [setTimeout] that arms the item's timer. *)
Definition start (item : QueueItem) (st : State) : State :=
  set_timers (timers st ∪ {[ item_id item ]})
    (set_stats (set_pending (pending (stats st) - 1) (stats st))
       (set_running (running st + 1) st)).

(** Line 69: [processQueue] is suspended at [await item.task()]. *)
Definition suspend (item : QueueItem) (st : State) : State :=
  set_awaiting (awaiting st ∪ {[ item_id item ]}) st.

(** Lines 80-83, the [catch] block up to its call of [processQueue]. *)
Definition on_error (i : nat) (e : error) (st : State) : State :=
  settle i (Rejected e)
    (set_running (running st - 1) (set_stats (inc_failed (stats st)) st)).

(** Lines 71-75, after the [await] returned: [clearTimeout] first. *)
Definition on_result (i : nat) (v : value) (st : State) : State :=
  settle i (Fulfilled v)
    (set_running (running st - 1)
       (set_stats (inc_completed (stats st))
          (set_timers (timers st ∖ {[ i ]}) st))).

(** Lines 62-64, the timer's callback up to its call of [processQueue];
    a timer that fired is no longer armed. *)
Definition on_timeout (i : nat) (st : State) : State :=
  settle i (Rejected Task_timeout)
    (set_running (running st - 1)
       (set_stats (inc_failed (stats st))
          (set_timers (timers st ∖ {[ i ]}) st))).

(** [processQueue()], run up to its first suspension.  [q] is [this.queue]
    on entry.  When the task throws before anything is awaited the [catch]
    block runs at once and calls [processQueue] again, on the rest of the
    queue; the item's timer stays armed.  ([if (!item) return] cannot
    trigger: the queue is not empty and holds objects.) *)
Fixpoint processQueue_from (q : list QueueItem) (st : State) : State :=
  match q with
  | [] => set_queue [] st
  | item :: q' =>
      if concurrency st <=? running st then set_queue q st
      else
        let st1 := start item st in
        match task item with
        | Throws e => processQueue_from q' (on_error (item_id item) e st1)
        | Awaits => set_queue q' (suspend item st1)
        end
  end.

Definition processQueue (st : State) : State :=
  processQueue_from (queue st) st.

(** The [queueItem] built by [addTask]. *)
Definition new_item (t : Task) (options : Options) (st : State) : QueueItem :=
  {| item_id := next_id st; task := t;
     item_timeout := or_default (opt_timeout options) (timeout st);
     priority := or_default (opt_priority options) 0 |}.

(** Lines 23-38 of [addTask]: count, create the promise, push, sort. *)
Definition enqueue (t : Task) (options : Options) (st : State) : State :=
  set_queue (array_sort by_priority (queue st ++ [new_item t options st]))
    (set_next_id (S (next_id st))
       (set_stats (set_pending (pending (stats st) + 1) (inc_total (stats st)))
          st)).

(** [addTask(task, options = {})]; the promise it returns is [next_id st]. *)
Definition addTask (t : Task) (options : Options) (st : State) : State :=
  processQueue (enqueue t options st).

(** The continuation of [await item.task()], up to its call of
    [processQueue]. *)
Definition after_await (i : nat) (r : value + error) (st : State) : State :=
  let st1 := set_awaiting (awaiting st ∖ {[ i ]}) st in
  match r with
  | inl v => on_result i v st1
  | inr e => on_error i e st1
  end.

(** The whole continuation: lines 71-78 or 80-86. *)
Definition await_continuation (i : nat) (r : value + error) (st : State)
  : State :=
  processQueue (after_await i r st).

(** The callback given to [setTimeout] in [processQueue]. *)
Definition timeout_callback (i : nat) (st : State) : State :=
  processQueue (on_timeout i st).

(** [getStats()]: the object literal, with later keys overriding the
    spread ones. *)
Record Snapshot := {
  snap_total : Z;
  snap_completed : Z;
  snap_failed : Z;
  snap_pending : Z;
  snap_concurrency : Z;
  snap_size : Z;
  snap_isPaused : bool
}.

Definition getStats (st : State) : Snapshot :=
  {| snap_total := total (stats st);
     snap_completed := completed (stats st);
     snap_failed := failed (stats st);
     snap_pending := running st;
     snap_concurrency := concurrency st;
     snap_size := Z.of_nat (length (queue st));
     snap_isPaused := false |}.

(** [this.queue.forEach(item => item.reject(new Error('Queue cleared')))] *)
Definition reject_all (q : list QueueItem) (m : gmap nat outcome)
  : gmap nat outcome :=
  foldl (fun p item => settle_in (item_id item) (Rejected Queue_cleared) p) m q.

(** [clear()] *)
Definition clear (st : State) : State :=
  set_stats (set_pending 0 (stats st))
    (set_queue [] (set_promises (reject_all (queue st) (promises st)) st)).

(** [this.running === 0 && this.queue.length === 0] *)
Definition is_idle (st : State) : bool :=
  bool_decide (running st = 0) && bool_decide (length (queue st) = 0%nat).

(** [checkIdle], the closure of [onIdle] whose promise is [w].  When that
    promise is one of the two raced by [onIdleWithTimeout], the race
    follows it. *)
Definition checkIdle (w : nat) (st : State) : State :=
  if is_idle st
  then
    let st1 :=
      set_idle_promises (settle_in w (Fulfilled undefined) (idle_promises st)) st in
    if bool_decide (w ∈ races st)
    then set_race_promises
           (settle_in w (Fulfilled undefined) (race_promises st1)) st1
    else st1
  else set_idle_polls (idle_polls st ∪ {[ w ]}) st.

(** [onIdle()]; the promise it returns is [next_waiter st]. *)
Definition onIdle (st : State) : State :=
  checkIdle (next_waiter st) (set_next_waiter (S (next_waiter st)) st).

(** [onIdleWithTimeout(timeout = 10000)]: [onIdle()] is called first, then
    the timer is armed, then the two promises are raced.  The race is
    named like the [onIdle] promise it contains. *)
Definition onIdleWithTimeout (ms : option Z) (st : State) : State :=
  let w := next_waiter st in
  let st1 := onIdle st in
  let st2 := set_race_timers (race_timers st1 ∪ {[ w ]})
               (set_races (races st1 ∪ {[ w ]}) st1) in
  match idle_promises st2 !! w with
  | Some o => set_race_promises (settle_in w o (race_promises st2)) st2
  | None => st2
  end.

(** The callback of the timer armed by [onIdleWithTimeout]. *)
Definition idle_timeout_callback (w : nat) (st : State) : State :=
  set_race_promises (settle_in w (Rejected Queue_idle_timeout) (race_promises st))
    (set_race_timers (race_timers st ∖ {[ w ]}) st).

(** The callback of [setTimeout(checkIdle, 100)]. *)
Definition poll_callback (w : nat) (st : State) : State :=
  checkIdle w (set_idle_polls (idle_polls st ∖ {[ w ]}) st).

(** [pause()] and [resume()] only write to the console. *)
Definition pause (st : State) : State := st.
Definition resume (st : State) : State := st.

(** [resetStats()] *)
Definition resetStats (st : State) : State :=
  set_stats {| total := 0; completed := 0; failed := 0; pending := 0 |} st.

(** [getHealth()], without the list of recommendations. *)
Record Health := {
  isHealthy : bool;
  health_stats : Snapshot
}.

Definition getHealth (st : State) : Health :=
  let stats := getStats st in
  {| isHealthy := snap_pending stats <? concurrency st * 2;
     health_stats := stats |}.

End QueueManager.

(** ** Executions *)

(** One event is one uninterrupted run of scheduler code: a method call
    from outside, the resumption of a suspended [processQueue], or a timer
    callback. *)
Inductive Event :=
  | AddTask (t : Task) (options : Options)
  | TaskSettles (i : nat) (r : value + error)
  | TimeoutFires (i : nat)
  | Clear
  | ResetStats
  | OnIdle
  | OnIdleWithTimeout (ms : option Z)
  | CheckIdleFires (w : nat)
  | IdleTimeoutFires (w : nat).

(** A suspended [processQueue] can only go on while it is suspended, and a
    timer can only fire while it is armed; such events are refused
    otherwise. *)
Definition step (st : State) (e : Event) : option State :=
  match e with
  | AddTask t options => Some (QueueManager.addTask t options st)
  | TaskSettles i r =>
      if bool_decide (i ∈ awaiting st)
      then Some (QueueManager.await_continuation i r st) else None
  | TimeoutFires i =>
      if bool_decide (i ∈ timers st)
      then Some (QueueManager.timeout_callback i st) else None
  | Clear => Some (QueueManager.clear st)
  | ResetStats => Some (QueueManager.resetStats st)
  | OnIdle => Some (QueueManager.onIdle st)
  | OnIdleWithTimeout ms => Some (QueueManager.onIdleWithTimeout ms st)
  | CheckIdleFires w =>
      if bool_decide (w ∈ idle_polls st)
      then Some (QueueManager.poll_callback w st) else None
  | IdleTimeoutFires w =>
      if bool_decide (w ∈ race_timers st)
      then Some (QueueManager.idle_timeout_callback w st) else None
  end.

Fixpoint run (st : State) (evs : list Event) : option State :=
  match evs with
  | [] => Some st
  | e :: evs' =>
      match step st e with
      | Some st' => run st' evs'
      | None => None
      end
  end.

(** The states an execution can reach from a freshly constructed object. *)
Definition reachable (config : Config) (st : State) : Prop :=
  exists evs, run (QueueManager.constructor config) evs = Some st.

(** The configurations the service uses: a limit that is absent or not
    negative ([0] is replaced by the default). *)
Definition valid_config (config : Config) : Prop :=
  match cfg_concurrency config with
  | Some c => 0 <= c
  | None => True
  end.

Definition default_config : Config :=
  {| cfg_concurrency := None; cfg_timeout := None |}.
Definition limit (n : Z) : Config :=
  {| cfg_concurrency := Some n; cfg_timeout := None |}.
Definition no_options : Options :=
  {| opt_timeout := None; opt_priority := None |}.
Definition with_priority (p : Z) : Options :=
  {| opt_timeout := None; opt_priority := Some p |}.

(** The state after the events [evs], from a fresh object. *)
Definition after (config : Config) (evs : list Event) : State :=
  default (QueueManager.constructor config)
    (run (QueueManager.constructor config) evs).

(** Three submissions in a row. *)
Definition burst : list Event :=
  [AddTask Awaits no_options; AddTask Awaits no_options;
   AddTask Awaits no_options].

(** With a limit of one: a task runs, then priorities 1, 5 and 5 are
    submitted. *)
Definition saturated : list Event :=
  [AddTask Awaits no_options; AddTask Awaits (with_priority 1);
   AddTask Awaits (with_priority 5); AddTask Awaits (with_priority 5)].

(** One task running under a limit of one. *)
Definition one_running : State := after (limit 1) [AddTask Awaits no_options].

(** Two submissions under a limit of one, a reset of the statistics, and
    the completion of the first task, which starts the second. *)
Definition reset_then_start : list Event :=
  [AddTask Awaits no_options; AddTask Awaits no_options; ResetStats;
   TaskSettles 0%nat (inl undefined)].

(** A task fails, a second one is started, the timer of the first fires,
    and a third task is submitted. *)
Definition overbooked : list Event :=
  [AddTask Awaits no_options; TaskSettles 0%nat (inr "boom"%string);
   AddTask Awaits no_options; TimeoutFires 0%nat; AddTask Awaits no_options].

(** Under a limit of one: a task is started, its timer fires, its
    operation completes afterwards, and two more tasks are submitted. *)
Definition overrun : list Event :=
  [AddTask Awaits no_options; TimeoutFires 0%nat;
   TaskSettles 0%nat (inl undefined);
   AddTask Awaits no_options; AddTask Awaits no_options].

(** ** The vocabulary of the properties *)

(** Events other than [clear()] and [resetStats()]: submissions,
    completions, failures, timer firings and idle waits. *)
Definition keeps_counters (e : Event) : bool :=
  match e with
  | Clear | ResetStats => false
  | _ => true
  end.

(** Events in which no task fails after being awaited and no task timer
    fires. *)
Definition undisturbed (e : Event) : bool :=
  match e with
  | TimeoutFires _ | TaskSettles _ (inr _) => false
  | _ => true
  end.

(** The sum against which [total] is compared, and the distance between
    the [pending] counter and the length of the queue. *)
Definition accounted (st : State) : Z :=
  completed (stats st) + failed (stats st) + running st + pending (stats st).

Definition backlog_gap (st : State) : Z :=
  pending (stats st) - Z.of_nat (length (queue st)).

(** [served_before a b]: [a] has the higher priority, or the same priority
    and was submitted first (item ids are handed out in submission
    order). *)
Definition served_before (a b : QueueItem) : Prop :=
  priority b < priority a \/
  (priority a = priority b /\ (item_id a < item_id b)%nat).

(** The tasks that wait when the gate is evaluated during event [e]: the
    queue, and the new item when [e] is a submission. *)
Definition candidates (st : State) (e : Event) : list QueueItem :=
  match e with
  | AddTask t options => queue st ++ [QueueManager.new_item t options st]
  | _ => queue st
  end.



(** Two states with the same scheduler: they differ at most in the
    bookkeeping of the idle waits. *)
Definition same_scheduler (st st' : State) : Prop :=
  concurrency st' = concurrency st /\ queue st' = queue st /\
  running st' = running st /\ stats st' = stats st /\
  next_id st' = next_id st /\ promises st' = promises st /\
  timers st' = timers st /\ awaiting st' = awaiting st.




(** What holds of the queue [q] and the runtime in every state an
    execution reaches: the queue is in serving order; queued items are
    distinct, not started, and their promises unsettled; ids in use are
    below [next_id]; and a task that is both awaited and under an armed
    timer has an unsettled promise. *)
Record queue_inv (q : list QueueItem) (st : State) : Prop := {
  qi_sorted : StronglySorted served_before q;
  qi_nodup : NoDup (item_id <$> q);
  qi_queued : Forall (fun x =>
      (item_id x < next_id st)%nat /\ promises st !! item_id x = None /\
      (item_id x ∉ timers st) /\ (item_id x ∉ awaiting st)) q;
  qi_bound : forall i,
      i ∈ timers st \/ i ∈ awaiting st \/ is_Some (promises st !! i) ->
      (i < next_id st)%nat;
  qi_unsettled : forall i,
      i ∈ awaiting st -> i ∈ timers st -> promises st !! i = None
}.

Definition well_formed (st : State) : Prop := queue_inv (queue st) st.

Import QueueManager.

(** ** More of the scheduler *)

(** [getRecommendations(stats)] of the QueueManager [st].  Its first test
    compares [stats.failed] with the floating-point product
    [stats.completed * 0.1]; that comparison is the parameter
    [exceeds_tenth]. *)
Definition High_failure_rate : string :=
  "High failure rate detected. Consider investigating error causes.".
Definition Backlog_is_high : string :=
  "Queue backlog is high. Consider increasing concurrency or optimizing tasks.".
Definition Performing_well : string :=
  "Queue is performing well with no failures.".

Definition getRecommendations (exceeds_tenth : Z -> Z -> bool) (st : State)
    (stats : Snapshot) : list string :=
  (if exceeds_tenth (snap_failed stats) (snap_completed stats)
   then [High_failure_rate] else []) ++
  (if concurrency st * 3 <? snap_pending stats
   then [Backlog_is_high] else []) ++
  (if (0 <? snap_completed stats) && (snap_failed stats =? 0)
   then [Performing_well] else []).

(** Submissions that leave the priority at its default, as all
    submissions of the service do ([addTask] is called without options). *)
Definition plain (e : Event) : bool :=
  match e with
  | AddTask _ options => or_default (opt_priority options) 0 =? 0
  | _ => true
  end.

Definition is_AddTask (e : Event) : bool :=
  match e with
  | AddTask _ _ => true
  | _ => false
  end.

Definition is_ResetStats (e : Event) : bool :=
  match e with
  | ResetStats => true
  | _ => false
  end.

(** The number of calls of [addTask] among the events. *)
Fixpoint submissions (evs : list Event) : nat :=
  match evs with
  | [] => 0
  | e :: evs' => if is_AddTask e then S (submissions evs') else submissions evs'
  end.

(** The ids of the queued tasks. *)
Definition queued (st : State) : list nat := item_id <$> queue st.

(** No task waits while a slot is free. *)
Definition work_conserving (st : State) : Prop :=
  queue st = [] \/ concurrency st <= running st.

(** Every task that was submitted and is neither queued nor in progress
    under an armed timer has been answered. *)
Definition all_answered (q : list QueueItem) (st : State) : Prop :=
  forall i, (i < next_id st)%nat -> promises st !! i = None ->
    i ∈ (item_id <$> q) \/ (i ∈ awaiting st /\ i ∈ timers st).

(** ** The error responses (errorHandler.js) *)

Module ErrorHandler.

(** [s.includes(needle)]: [needle] occurs in [s] at some position. *)
Fixpoint includes (needle s : string) : bool :=
  String.prefix needle s ||
  match s with
  | EmptyString => false
  | String _ s' => includes needle s'
  end.

Record Categorization := {
  statusCode : Z;
  type : string;
  message : string
}.

(** The tests of [categorizeError], on [message]. *)
Definition categorize (message : string) : Categorization :=
  if includes "Invalid URL" message || includes "not found" message then
    {| statusCode := 400; type := "INVALID_URL";
       message := "The provided URL is invalid or unreachable" |}
  else if includes "Image processing failed" message
       || includes "Image resizing failed" message
       || includes "Empty response" message then
    {| statusCode := 422; type := "IMAGE_PROCESSING_ERROR";
       message := "Failed to process the image. Please ensure the URL points to a valid image." |}
  else if includes "Model not loaded" message
       || includes "Model loading failed" message then
    {| statusCode := 503; type := "MODEL_ERROR";
       message := "The analysis model is not available. Please try again later." |}
  else if includes "Image analysis failed" message then
    {| statusCode := 422; type := "ANALYSIS_ERROR";
       message := "Failed to analyze the image. The image may be corrupted or in an unsupported format." |}
  else if includes "timeout" message || includes "Request timeout" message then
    {| statusCode := 408; type := "TIMEOUT_ERROR";
       message := "Request timed out. The image may be too large or the server is busy." |}
  else if includes "validation" message || includes "required" message then
    {| statusCode := 400; type := "VALIDATION_ERROR";
       message := "Invalid request. Please check your input and try again." |}
  else
    {| statusCode := 500; type := "INTERNAL_SERVER_ERROR";
       message := "An unexpected error occurred. Please try again later." |}.

(** [categorizeError(error)]; [error_message] is [error.message], which may
    be absent, and is replaced when it is absent or empty
    ([error.message || 'Unknown error occurred']). *)
Definition categorizeError (error_message : option string) : Categorization :=
  categorize
    match error_message with
    | Some (String c m) => String c m
    | _ => "Unknown error occurred"
    end.

End ErrorHandler.

(** The message built by the [catch] block of [processImage]
    (imageProcessor.js, line 45) around the message [m] of the error it
    caught. *)
Definition processImage_error (m : string) : string :=
  ("Image processing failed: " ++ m)%string.

(** ** The classifier's results (nsfwAnalyzer.js) *)

Module NSFWAnalyzer.

(** [Object.entries(predictions)]: class names with their probabilities.
    Probabilities are only compared, never computed with; they are
    modelled as rationals (no NaN). *)
Definition Predictions := list (string * Q).

(** The body of the loop [for (const [className, probability] of ...)]. *)
Definition keep_larger (best : option string * Q) (entry : string * Q)
  : option string * Q :=
  if Qlt_le_dec (snd best) (snd entry)
  then (Some (fst entry), snd entry)
  else best.

Record Classification := {
  classification : option string;
  confidence : Q
}.

(** [getMostLikelyClassification(predictions)] *)
Definition getMostLikelyClassification (predictions : Predictions)
  : Classification :=
  let best := foldl keep_larger (None, 0%Q) predictions in
  {| classification := fst best; confidence := snd best |}.

Definition safeCategories : list string := ["Neutral"; "Drawing"].
Definition nsfwCategories : list string := ["Porn"; "Sexy"; "Hentai"].

(** [categories.includes(mostLikelyCategory)], where the category may be
    [null]. *)
Definition includes_category (categories : list string) (c : option string)
  : bool :=
  match c with
  | Some name => bool_decide (name ∈ categories)
  | None => false
  end.

Record Safety := {
  isSafe : bool;
  mostLikelyCategory : option string;
  safety_confidence : Q;
  safety_threshold : Q;
  assessment : string
}.

(** [assessSafety(predictions, threshold = 0.5)], without the copy of the
    predictions it returns as [allPredictions]. *)
Definition assessSafety (predictions : Predictions) (threshold : option Q)
  : Safety :=
  let threshold := default (1 # 2)%Q threshold in
  let best := foldl keep_larger (None, 0%Q) predictions in
  let safe := includes_category safeCategories (fst best) in
  let nsfw := includes_category nsfwCategories (fst best) in
  let confidentEnough := Qle_bool threshold (snd best) in
  {| isSafe := confidentEnough && safe;
     mostLikelyCategory := fst best;
     safety_confidence := snd best;
     safety_threshold := threshold;
     assessment :=
       if negb confidentEnough then "uncertain"
       else if safe then "safe"
       else if nsfw then "nsfw"
       else "unknown" |}.

End NSFWAnalyzer.

(** ** How [processQueue] unfolds *)

(** The four ways through [processQueue]: nothing queued, gate closed, the
    task threw (and the next call runs), the task is awaited. *)
Lemma processQueue_from_cases (P : list QueueItem -> State -> State -> Prop) :
  (forall st, P [] st (set_queue [] st)) ->
  (forall item q st,
      concurrency st <= running st ->
      P (item :: q) st (set_queue (item :: q) st)) ->
  (forall item q st e,
      running st < concurrency st ->
      task item = Throws e ->
      let st' := on_error (item_id item) e (start item st) in
      P q st' (processQueue_from q st') ->
      P (item :: q) st (processQueue_from q st')) ->
  (forall item q st,
      running st < concurrency st ->
      task item = Awaits ->
      P (item :: q) st (set_queue q (suspend item (start item st)))) ->
  forall q st, P q st (processQueue_from q st).
Proof.
  intros Hnil Hfull Hthrow Hawait q.
  induction q as [|item q IH]; intros st; simpl.
  - apply Hnil.
  - destruct (Z.leb_spec (concurrency st) (running st)) as [Hge|Hlt].
    + by apply Hfull.
    + destruct (task item) as [e|] eqn:Ht.
      * apply Hthrow; [done..|]. apply IH.
      * by apply Hawait.
Qed.

(** [processQueue] reads the limit and writes the queue, the counters, the
    task promises, timers and awaits; nothing else. *)
Lemma processQueue_from_frame q st :
  let st' := processQueue_from q st in
  concurrency st' = concurrency st /\ timeout st' = timeout st /\
  next_id st' = next_id st /\ next_waiter st' = next_waiter st /\
  idle_promises st' = idle_promises st /\ idle_polls st' = idle_polls st /\
  races st' = races st /\ race_promises st' = race_promises st /\
  race_timers st' = race_timers st.
Proof.
  apply (processQueue_from_cases (fun _ st st' =>
    concurrency st' = concurrency st /\ timeout st' = timeout st /\
    next_id st' = next_id st /\ next_waiter st' = next_waiter st /\
    idle_promises st' = idle_promises st /\ idle_polls st' = idle_polls st /\
    races st' = races st /\ race_promises st' = race_promises st /\
    race_timers st' = race_timers st)); clear; simpl; intros; tauto.
Qed.

Lemma processQueue_from_concurrency q st :
  concurrency (processQueue_from q st) = concurrency st.
Proof. apply processQueue_from_frame. Qed.

(** The gate: a call of [processQueue] never takes [running] above the
    limit. *)
Lemma processQueue_from_running q st :
  running st <= concurrency st ->
  running (processQueue_from q st) <= concurrency st.
Proof.
  apply (processQueue_from_cases (fun _ st st' =>
    running st <= concurrency st -> running st' <= concurrency st));
    clear; simpl; intros; lia.
Qed.

(** Each pass through [processQueue] moves one unit from [pending] to
    [running], or from there to [failed]: the sum of the four is kept, and
    [pending] follows the length of the queue. *)
Lemma processQueue_from_counters q st :
  let st' := processQueue_from q st in
  total (stats st') = total (stats st) /\
  accounted st' = accounted st /\
  backlog_gap st' = pending (stats st) - Z.of_nat (length q).
Proof.
  apply (processQueue_from_cases (fun q st st' =>
    total (stats st') = total (stats st) /\
    accounted st' = accounted st /\
    backlog_gap st' = pending (stats st) - Z.of_nat (length q)));
    clear; unfold accounted, backlog_gap; simpl; intros; lia.
Qed.

Lemma processQueue_counters st :
  total (stats (processQueue st)) = total (stats st) /\
  accounted (processQueue st) = accounted st /\
  backlog_gap (processQueue st) = backlog_gap st.
Proof. apply processQueue_from_counters. Qed.

(** Queue operations keep the number of elements. *)
Lemma sort_insert_length {A} (cmp : A -> A -> Z) x l :
  length (sort_insert cmp x l) = S (length l).
Proof.
  induction l as [|y l IH]; simpl; [done|].
  destruct (0 <? cmp x y); simpl; by rewrite ?IH.
Qed.

Lemma array_sort_length {A} (cmp : A -> A -> Z) l :
  length (array_sort cmp l) = length l.
Proof.
  induction l as [|x l IH]; simpl; [done|].
  by rewrite sort_insert_length, IH.
Qed.

(** The idle waits do not touch the scheduler. *)
Lemma checkIdle_same w st : same_scheduler st (checkIdle w st).
Proof. unfold checkIdle, same_scheduler. repeat case_match; simpl; tauto. Qed.

Lemma onIdle_same st : same_scheduler st (onIdle st).
Proof. apply (checkIdle_same _ (set_next_waiter _ st)). Qed.

Lemma onIdleWithTimeout_same ms st :
  same_scheduler st (onIdleWithTimeout ms st).
Proof.
  unfold onIdleWithTimeout. pose proof (onIdle_same st) as H.
  unfold same_scheduler in *. case_match; simpl; tauto.
Qed.

Lemma poll_callback_same w st : same_scheduler st (poll_callback w st).
Proof. apply (checkIdle_same _ (set_idle_polls _ st)). Qed.

(** ** Steps and the limit *)

(** Every event either ends in a call of [processQueue] on some state, or
    leaves the queue, the counter [running] and the limit to a method that
    does not start tasks. *)
Lemma step_concurrency st e st' :
  step st e = Some st' -> concurrency st' = concurrency st.
Proof.
  destruct e; simpl; intros H; repeat case_bool_decide; simplify_eq;
    try done.
  - unfold addTask, processQueue. by rewrite processQueue_from_concurrency.
  - unfold await_continuation, processQueue, after_await.
    destruct r; by rewrite processQueue_from_concurrency.
  - unfold timeout_callback, processQueue.
    by rewrite processQueue_from_concurrency.
  - apply onIdle_same.
  - apply onIdleWithTimeout_same.
  - apply poll_callback_same.
Qed.

Lemma step_running st e st' :
  step st e = Some st' ->
  running st <= concurrency st -> running st' <= concurrency st'.
Proof.
  intros H Hle. rewrite (step_concurrency _ _ _ H).
  destruct e; simpl in H; repeat case_bool_decide; simplify_eq; try done.
  - unfold addTask, processQueue.
    (etrans; [apply processQueue_from_running|]); simpl; lia.
  - unfold await_continuation, processQueue, after_await. destruct r;
      (etrans; [apply processQueue_from_running|]); simpl; lia.
  - unfold timeout_callback, processQueue.
    (etrans; [apply processQueue_from_running|]); simpl; lia.
  - by destruct (onIdle_same st) as (_ & _ & -> & _).
  - by destruct (onIdleWithTimeout_same ms st) as (_ & _ & -> & _).
  - by destruct (poll_callback_same w st) as (_ & _ & -> & _).
Qed.

Lemma run_app st evs1 evs2 :
  run st (evs1 ++ evs2) = run st evs1 ≫= fun st' => run st' evs2.
Proof.
  revert st. induction evs1 as [|e evs1 IH]; intros st; simpl; [done|].
  destruct (step st e); simpl; [apply IH|done].
Qed.

(** Invariants are proved along executions. *)
Lemma run_invariant (P : State -> Prop) st evs st' :
  (forall s e s', P s -> step s e = Some s' -> P s') ->
  P st -> run st evs = Some st' -> P st'.
Proof.
  intros Hstep. revert st.
  induction evs as [|e evs IH]; intros st HP Hrun; simpl in Hrun.
  - by simplify_eq.
  - destruct (step st e) as [s|] eqn:He; [|done]. eauto.
Qed.

Lemma constructor_limit config :
  valid_config config -> 0 <= concurrency (constructor config).
Proof.
  unfold valid_config; simpl.
  destruct (cfg_concurrency config) as [c|]; simpl; [|lia].
  destruct (Z.eqb_spec c 0); lia.
Qed.

(** ** The order of the queue *)

Lemma served_before_trans a b c :
  served_before a b -> served_before b c -> served_before a c.
Proof. unfold served_before. lia. Qed.

Lemma sort_insert_Permutation {A} (cmp : A -> A -> Z) x l :
  sort_insert cmp x l ≡ₚ x :: l.
Proof.
  induction l as [|y l IH]; simpl; [done|].
  destruct (0 <? cmp x y); [|done].
  rewrite IH. apply Permutation_swap.
Qed.

Lemma array_sort_Permutation {A} (cmp : A -> A -> Z) l :
  array_sort cmp l ≡ₚ l.
Proof.
  induction l as [|x l IH]; simpl; [done|].
  by rewrite sort_insert_Permutation, IH.
Qed.

(** Inserting an item that stood in front of a sorted list: it passes the
    items of strictly higher priority and stops at the first other one, so
    it ends up before every item of its own priority, provided those were
    all submitted later. *)
Lemma sort_insert_sorted x l :
  StronglySorted served_before l ->
  Forall (fun y => priority y = priority x -> (item_id x < item_id y)%nat) l ->
  StronglySorted served_before (sort_insert by_priority x l).
Proof.
  induction 1 as [|y l Hl IH Hy]; intros Hties; simpl.
  - repeat constructor.
  - apply Forall_cons in Hties as [Hxy Hties]. unfold by_priority at 1.
    destruct (Z.ltb_spec 0 (priority y - priority x)) as [Hlt|Hge].
    + constructor; [by apply IH|].
      rewrite sort_insert_Permutation. constructor; [|done].
      left. lia.
    + assert (served_before x y) as Hbefore.
      { destruct (decide (priority y = priority x)) as [Heq|Hne].
        - right. split; [done|]. by apply Hxy.
        - left. lia. }
      constructor; [by constructor|]. constructor; [done|].
      eapply Forall_impl; [exact Hy|]. intros z Hz.
      by eapply served_before_trans.
Qed.

(** [push] followed by [sort]: on a sorted queue, with a new item whose id
    is larger than all ids in the queue, the result is sorted again. *)
Lemma array_sort_push q x :
  StronglySorted served_before q ->
  Forall (fun y => (item_id y < item_id x)%nat) q ->
  StronglySorted served_before (array_sort by_priority (q ++ [x])).
Proof.
  induction 1 as [|y q Hq IH Hy]; intros Hids; simpl.
  - repeat constructor.
  - apply Forall_cons in Hids as [Hyx Hids].
    apply sort_insert_sorted; [by apply IH|].
    rewrite array_sort_Permutation. apply Forall_app. split.
    + eapply Forall_impl; [exact Hy|]. unfold served_before.
      intros z Hz Heq. lia.
    + by repeat constructor.
Qed.

(** ** Promises *)

Lemma lookup_settle_in_ne i j o (m : gmap nat outcome) :
  i <> j -> settle_in i o m !! j = m !! j.
Proof.
  intros Hne. unfold settle_in. destruct (m !! i); [done|].
  by rewrite lookup_insert_ne.
Qed.

Lemma lookup_settle_in_fresh i o (m : gmap nat outcome) :
  m !! i = None -> settle_in i o m !! i = Some o.
Proof.
  intros Hnone. unfold settle_in. rewrite Hnone.
  by rewrite lookup_insert_eq.
Qed.

Lemma lookup_settle_in_settled i o o' (m : gmap nat outcome) :
  m !! i = Some o' -> settle_in i o m = m.
Proof. intros Hsome. unfold settle_in. by rewrite Hsome. Qed.

Lemma settle_in_is_Some i j o (m : gmap nat outcome) :
  is_Some (settle_in i o m !! j) -> j = i \/ is_Some (m !! j).
Proof.
  destruct (decide (i = j)) as [->|Hne]; [by left|].
  rewrite lookup_settle_in_ne by done. by right.
Qed.

Lemma reject_all_other q m i :
  i ∉ (item_id <$> q) -> reject_all q m !! i = m !! i.
Proof.
  revert m. induction q as [|x q IH]; intros m Hi; simpl; [done|].
  rewrite fmap_cons in Hi. apply not_elem_of_cons in Hi as [Hne Hi].
  unfold reject_all in *. simpl. rewrite IH by done.
  by apply lookup_settle_in_ne.
Qed.

Lemma reject_all_settled q m i o :
  m !! i = Some o -> reject_all q m !! i = Some o.
Proof.
  revert m. induction q as [|x q IH]; intros m Hi; simpl; [done|].
  unfold reject_all in *. simpl. apply IH.
  destruct (decide (item_id x = i)) as [->|Hne].
  - by erewrite lookup_settle_in_settled.
  - by rewrite lookup_settle_in_ne.
Qed.

Lemma reject_all_queued q m i :
  i ∈ (item_id <$> q) -> m !! i = None ->
  reject_all q m !! i = Some (Rejected Queue_cleared).
Proof.
  revert m. induction q as [|x q IH]; intros m Hi Hnone; simpl.
  - by apply elem_of_nil in Hi.
  - unfold reject_all in *. simpl.
    destruct (decide (item_id x = i)) as [<-|Hne].
    + apply (reject_all_settled q). by apply lookup_settle_in_fresh.
    + rewrite fmap_cons in Hi. apply elem_of_cons in Hi as [->|Hi]; [done|].
      apply IH; [done|]. by rewrite lookup_settle_in_ne.
Qed.

(** ** Well-formed states *)

Lemma queue_inv_same q st st' :
  same_scheduler st st' -> queue_inv q st -> queue_inv q st'.
Proof.
  intros (_ & _ & _ & _ & Hn & Hp & Ht & Ha) [? ? ? ? ?].
  split; rewrite ?Hn, ?Hp, ?Ht, ?Ha; done.
Qed.

Lemma well_formed_same st st' :
  same_scheduler st st' -> well_formed st -> well_formed st'.
Proof.
  intros Hsame Hwf. unfold well_formed.
  pose proof Hsame as (_ & -> & _). by eapply queue_inv_same.
Qed.

Lemma queue_inv_head x q st :
  queue_inv (x :: q) st ->
  StronglySorted served_before q /\ NoDup (item_id <$> q) /\
  (item_id x ∉ (item_id <$> q)) /\
  (item_id x < next_id st)%nat /\ promises st !! item_id x = None /\
  (item_id x ∉ timers st) /\ (item_id x ∉ awaiting st).
Proof.
  intros [Hs Hn Hq _ _].
  apply StronglySorted_inv in Hs as [Hs _].
  rewrite fmap_cons in Hn. apply NoDup_cons in Hn as [Hx Hn].
  apply Forall_cons in Hq as [(? & ? & ? & ?) _]. done.
Qed.

(** The head of the queue is started and its task throws. *)
Lemma start_on_error_inv item q e st :
  queue_inv (item :: q) st ->
  queue_inv q (on_error (item_id item) e (start item st)).
Proof.
  intros Hinv.
  pose proof (queue_inv_head _ _ _ Hinv)
    as (Hs & Hn & Hx & Hlt & Hnone & Htimer & Hawait).
  destruct Hinv as [_ _ Hq Hb Hu].
  apply Forall_cons in Hq as [_ Hq].
  split; simpl; [done|done|..].
  - apply Forall_forall. intros y Hy.
    rewrite Forall_forall in Hq. destruct (Hq y Hy) as (? & ? & ? & ?).
    assert (item_id item <> item_id y).
    { intros Heq. apply Hx. rewrite Heq. by apply list_elem_of_fmap_2. }
    rewrite lookup_settle_in_ne by done. set_solver.
  - intros i [Hi|[Hi|Hi]].
    + apply elem_of_union in Hi as [Hi|Hi]; [by apply Hb; left|].
      apply elem_of_singleton in Hi. by subst.
    + apply Hb. by right; left.
    + apply settle_in_is_Some in Hi as [->|Hi]; [done|].
      apply Hb. by right; right.
  - intros i Hi Hi'.
    assert (item_id item <> i) by (intros <-; done).
    rewrite lookup_settle_in_ne by done. apply Hu; set_solver.
Qed.

(** The head of the queue is started and its task is awaited. *)
Lemma start_suspend_inv item q st :
  queue_inv (item :: q) st ->
  queue_inv q (suspend item (start item st)).
Proof.
  intros Hinv.
  pose proof (queue_inv_head _ _ _ Hinv)
    as (Hs & Hn & Hx & Hlt & Hnone & Htimer & Hawait).
  destruct Hinv as [_ _ Hq Hb Hu].
  apply Forall_cons in Hq as [_ Hq].
  split; simpl; [done|done|..].
  - apply Forall_forall. intros y Hy.
    rewrite Forall_forall in Hq. destruct (Hq y Hy) as (? & ? & ? & ?).
    assert (item_id item <> item_id y).
    { intros Heq. apply Hx. rewrite Heq. by apply list_elem_of_fmap_2. }
    set_solver.
  - intros i [Hi|[Hi|Hi]].
    + apply elem_of_union in Hi as [Hi|Hi]; [by apply Hb; left|].
      apply elem_of_singleton in Hi. by subst.
    + apply elem_of_union in Hi as [Hi|Hi]; [by apply Hb; right; left|].
      apply elem_of_singleton in Hi. by subst.
    + apply Hb. by right; right.
  - intros i Hi Hi'.
    destruct (decide (i = item_id item)) as [->|Hne]; [done|].
    apply Hu; set_solver.
Qed.

Lemma queue_inv_set_queue q q' st :
  queue_inv q st -> queue_inv q (set_queue q' st).
Proof. intros [? ? ? ? ?]. by split. Qed.

Lemma processQueue_from_well_formed q st :
  queue_inv q st -> well_formed (processQueue_from q st).
Proof.
  apply (processQueue_from_cases (fun q st st' =>
    queue_inv q st -> well_formed st')); clear.
  - intros st. apply queue_inv_set_queue.
  - intros item q st _. apply queue_inv_set_queue.
  - intros item q st e _ _ st' IH Hinv. apply IH.
    by apply start_on_error_inv.
  - intros item q st _ _ Hinv.
    by apply (queue_inv_set_queue q q), start_suspend_inv.
Qed.

Lemma processQueue_well_formed st :
  well_formed st -> well_formed (processQueue st).
Proof. apply processQueue_from_well_formed. Qed.

Lemma constructor_well_formed config : well_formed (constructor config).
Proof.
  split; simpl.
  - constructor.
  - constructor.
  - constructor.
  - intros i [Hi|[Hi|Hi]]; [set_solver..|].
    rewrite lookup_empty in Hi. by destruct Hi.
  - intros i Hi. set_solver.
Qed.

(** A fresh id is in no table. *)
Lemma next_id_fresh st :
  well_formed st ->
  promises st !! next_id st = None /\
  (next_id st ∉ timers st) /\ (next_id st ∉ awaiting st).
Proof.
  intros [_ _ _ Hb _]. split; [|split].
  - destruct (promises st !! next_id st) eqn:Hp; [|done].
    assert (next_id st < next_id st)%nat; [|lia].
    apply Hb. right; right. by rewrite Hp.
  - intros Hi. assert (next_id st < next_id st)%nat; [|lia].
    apply Hb. by left.
  - intros Hi. assert (next_id st < next_id st)%nat; [|lia].
    apply Hb. by right; left.
Qed.

Lemma enqueue_well_formed t options st :
  well_formed st -> well_formed (enqueue t options st).
Proof.
  intros Hwf.
  destruct (next_id_fresh st Hwf) as (Hnone & Htimer & Hawait).
  destruct Hwf as [Hs Hn Hq Hb Hu].
  split; simpl.
  - apply array_sort_push; [done|].
    eapply Forall_impl; [exact Hq|]. simpl. tauto.
  - rewrite array_sort_Permutation, fmap_app. simpl.
    apply NoDup_app. split; [done|]. split; [|apply NoDup_singleton].
    intros i Hi ->%list_elem_of_singleton.
    apply list_elem_of_fmap_1 in Hi as (y & Hy & Hin).
    rewrite Forall_forall in Hq. destruct (Hq y Hin) as (? & _). lia.
  - rewrite array_sort_Permutation. apply Forall_app. split.
    + eapply Forall_impl; [exact Hq|]. simpl. intros y (? & ? & ? & ?).
      split; [lia|done].
    + apply Forall_singleton. simpl. split; [lia|done].
  - intros i Hi. apply Hb in Hi. lia.
  - done.
Qed.

Lemma after_await_well_formed i r st :
  well_formed st -> i ∈ awaiting st -> well_formed (after_await i r st).
Proof.
  intros [Hs Hn Hq Hb Hu] Hi.
  assert (Forall (fun x => item_id x <> i) (queue st)) as Hne.
  { eapply Forall_impl; [exact Hq|]. simpl.
    intros y (_ & _ & _ & Hy) Heq. by rewrite Heq in Hy. }
  destruct r as [v|err]; (split; simpl; [done|done|..]).
  - apply Forall_forall. intros y Hy. rewrite Forall_forall in Hq, Hne.
    destruct (Hq y Hy) as (? & ? & ? & ?). specialize (Hne y Hy).
    rewrite lookup_settle_in_ne by done. set_solver.
  - intros j [Hj|[Hj|Hj]].
    + apply Hb. left. set_solver.
    + apply Hb. right; left. set_solver.
    + apply settle_in_is_Some in Hj as [->|Hj]; apply Hb; auto.
  - intros j Hj Hj'. apply elem_of_difference in Hj as [Hj Hji].
    rewrite lookup_settle_in_ne by set_solver. apply Hu; set_solver.
  - apply Forall_forall. intros y Hy. rewrite Forall_forall in Hq, Hne.
    destruct (Hq y Hy) as (? & ? & ? & ?). specialize (Hne y Hy).
    rewrite lookup_settle_in_ne by done. set_solver.
  - intros j [Hj|[Hj|Hj]].
    + apply Hb. by left.
    + apply Hb. right; left. set_solver.
    + apply settle_in_is_Some in Hj as [->|Hj]; apply Hb; auto.
  - intros j Hj Hj'. apply elem_of_difference in Hj as [Hj Hji].
    rewrite lookup_settle_in_ne by set_solver. by apply Hu.
Qed.

Lemma on_timeout_well_formed i st :
  well_formed st -> i ∈ timers st -> well_formed (on_timeout i st).
Proof.
  intros [Hs Hn Hq Hb Hu] Hi.
  assert (Forall (fun x => item_id x <> i) (queue st)) as Hne.
  { eapply Forall_impl; [exact Hq|]. simpl.
    intros y (_ & _ & Hy & _) Heq. by rewrite Heq in Hy. }
  split; simpl; [done|done|..].
  - apply Forall_forall. intros y Hy. rewrite Forall_forall in Hq, Hne.
    destruct (Hq y Hy) as (? & ? & ? & ?). specialize (Hne y Hy).
    rewrite lookup_settle_in_ne by done. set_solver.
  - intros j [Hj|[Hj|Hj]].
    + apply Hb. left. set_solver.
    + apply Hb. by right; left.
    + apply settle_in_is_Some in Hj as [->|Hj]; apply Hb; auto.
  - intros j Hj Hj'. apply elem_of_difference in Hj' as [Hj' Hji].
    rewrite lookup_settle_in_ne by set_solver. by apply Hu.
Qed.

Lemma clear_well_formed st : well_formed st -> well_formed (clear st).
Proof.
  intros [Hs Hn Hq Hb Hu]. split; simpl.
  - constructor.
  - constructor.
  - constructor.
  - intros j [Hj|[Hj|Hj]]; [apply Hb; auto..|].
    destruct (decide (j ∈ item_id <$> queue st)) as [Hin|Hout].
    + apply list_elem_of_fmap_1 in Hin as (y & -> & Hy).
      rewrite Forall_forall in Hq. by destruct (Hq y Hy).
    + rewrite reject_all_other in Hj by done. apply Hb; auto.
  - intros j Hj Hj'. rewrite reject_all_other; [by apply Hu|].
    intros (y & -> & Hy)%list_elem_of_fmap_1.
    rewrite Forall_forall in Hq. by destruct (Hq y Hy) as (_ & _ & _ & ?).
Qed.

Lemma step_well_formed st e st' :
  well_formed st -> step st e = Some st' -> well_formed st'.
Proof.
  intros Hwf Hstep.
  destruct e; simpl in Hstep; repeat case_bool_decide; simplify_eq.
  - by apply processQueue_well_formed, enqueue_well_formed.
  - by apply processQueue_well_formed, after_await_well_formed.
  - by apply processQueue_well_formed, on_timeout_well_formed.
  - by apply clear_well_formed.
  - destruct Hwf. by split.
  - eapply well_formed_same; [apply onIdle_same|done].
  - eapply well_formed_same; [apply onIdleWithTimeout_same|done].
  - eapply well_formed_same; [apply poll_callback_same|done].
  - destruct Hwf. by split.
Qed.

Lemma reachable_well_formed config st :
  reachable config st -> well_formed st.
Proof.
  intros [evs Hrun].
  eapply (run_invariant well_formed); [|apply constructor_well_formed|done].
  intros s e s' Hs He. by eapply step_well_formed.
Qed.

Lemma reachable_running config st :
  valid_config config -> reachable config st ->
  running st <= concurrency st.
Proof.
  intros Hcfg [evs Hrun].
  eapply (run_invariant (fun s => running s <= concurrency s)); [| |done].
  - intros s e s' Hs He. by eapply step_running.
  - by apply constructor_limit.
Qed.

Lemma run_concurrency st evs st' :
  run st evs = Some st' -> concurrency st' = concurrency st.
Proof.
  revert st. induction evs as [|e evs IH]; intros st Hrun; simpl in Hrun.
  - by simplify_eq.
  - destruct (step st e) as [s|] eqn:He; [|done].
    rewrite (IH _ Hrun). by eapply step_concurrency.
Qed.

(** ** What one call of [processQueue] starts *)

(** A call of [processQueue] starts a prefix of the queue, in queue order,
    and leaves the rest queued.  The timers armed are those of the started
    items; promises and awaits of other tasks are kept. *)
Lemma processQueue_from_started q st :
  let st' := processQueue_from q st in
  exists started,
    q = started ++ queue st' /\
    timers st' = timers st ∪ list_to_set (item_id <$> started) /\
    (forall i, i ∉ (item_id <$> started) ->
       promises st' !! i = promises st !! i /\
       (i ∈ awaiting st' <-> i ∈ awaiting st)) /\
    (running st < concurrency st -> q <> [] -> started <> []).
Proof.
  apply (processQueue_from_cases (fun q st st' =>
    exists started,
      q = started ++ queue st' /\
      timers st' = timers st ∪ list_to_set (item_id <$> started) /\
      (forall i, i ∉ (item_id <$> started) ->
         promises st' !! i = promises st !! i /\
         (i ∈ awaiting st' <-> i ∈ awaiting st)) /\
      (running st < concurrency st -> q <> [] -> started <> []))); clear.
  - intros st. exists []. simpl. split_and!; [done|set_solver|done|done].
  - intros item q st Hfull. exists []. simpl.
    split_and!; [done|set_solver|done|lia].
  - intros item q st e Hopen Htask st' (started & Hq & Ht & Hp & _).
    exists (item :: started). split_and!.
    + simpl. by rewrite <- Hq.
    + rewrite Ht. subst st'. simpl. set_solver.
    + intros i Hi. rewrite fmap_cons in Hi.
      apply not_elem_of_cons in Hi as [Hne Hi].
      destruct (Hp i Hi) as [-> ->]. subst st'. simpl.
      by rewrite lookup_settle_in_ne.
    + done.
  - intros item q st Hopen Htask. exists [item]. simpl. split_and!.
    + done.
    + set_solver.
    + intros i Hi. split; [done|]. set_solver.
    + done.
Qed.

Lemma processQueue_from_awaits item q st :
  running st < concurrency st -> task item = Awaits ->
  processQueue_from (item :: q) st = set_queue q (suspend item (start item st)).
Proof.
  intros Hopen Htask. simpl. rewrite Htask.
  by destruct (Z.leb_spec (concurrency st) (running st)); [lia|].
Qed.

(** In a list without repeated ids an item is determined by its id. *)
Lemma item_id_inj_in (q : list QueueItem) x y :
  NoDup (item_id <$> q) -> x ∈ q -> y ∈ q -> item_id x = item_id y -> x = y.
Proof.
  induction q as [|z q IH]; intros Hn Hx Hy Heq.
  - by apply elem_of_nil in Hx.
  - rewrite fmap_cons in Hn. apply NoDup_cons in Hn as [Hz Hn].
    apply elem_of_cons in Hx as [->|Hx]; apply elem_of_cons in Hy as [->|Hy].
    + done.
    + exfalso. apply Hz. rewrite Heq. by apply list_elem_of_fmap_2.
    + exfalso. apply Hz. rewrite <- Heq. by apply list_elem_of_fmap_2.
    + by apply IH.
Qed.

(** The items a call of [processQueue] starts are served before all the
    items it leaves in the queue. *)
Lemma processQueue_order st x y :
  well_formed st ->
  x ∈ queue st -> item_id x ∈ timers (processQueue st) ->
  y ∈ queue (processQueue st) -> served_before x y.
Proof.
  intros Hwf Hx Hstarted Hy.
  destruct (processQueue_from_started (queue st) st)
    as (started & Hq & Ht & _ & _).
  fold (processQueue st) in Hq, Ht.
  destruct Hwf as [Hs Hn Hqueued _ _].
  rewrite Ht in Hstarted. apply elem_of_union in Hstarted as [Hold|Hnew].
  - rewrite Forall_forall in Hqueued.
    by destruct (Hqueued x Hx) as (_ & _ & ? & _).
  - apply elem_of_list_to_set, list_elem_of_fmap_1 in Hnew
      as (x' & Heq & Hx').
    assert (x = x') as <-.
    { apply (item_id_inj_in (queue st)); [done|done| |done].
      rewrite Hq. apply elem_of_app. by left. }
    rewrite Hq in Hs. by eapply StronglySorted_app_1_elem_of.
Qed.

(** ** Tasks in flight *)

Lemma size_add_fresh (X : gset nat) i :
  i ∉ X -> Z.of_nat (size (X ∪ {[ i ]})) = Z.of_nat (size X) + 1.
Proof.
  intros Hi. rewrite size_union by set_solver. rewrite size_singleton. lia.
Qed.

Lemma size_remove_member (X : gset nat) i :
  i ∈ X -> Z.of_nat (size (X ∖ {[ i ]})) = Z.of_nat (size X) - 1.
Proof.
  intros Hi.
  assert (({[ i ]} : gset nat) ⊆ X) as Hsub by set_solver.
  pose proof (subseteq_size _ _ Hsub) as Hle.
  rewrite size_difference by done.
  rewrite size_singleton in *. lia.
Qed.

Lemma processQueue_from_in_flight q st :
  queue_inv q st ->
  running st = Z.of_nat (size (awaiting st)) ->
  running (processQueue_from q st) =
  Z.of_nat (size (awaiting (processQueue_from q st))).
Proof.
  apply (processQueue_from_cases (fun q st st' =>
    queue_inv q st ->
    running st = Z.of_nat (size (awaiting st)) ->
    running st' = Z.of_nat (size (awaiting st')))); clear.
  - done.
  - done.
  - intros item q st e _ _ st' IH Hinv Hcount. apply IH.
    + by apply start_on_error_inv.
    + subst st'. simpl. lia.
  - intros item q st _ _ Hinv Hcount. simpl.
    apply queue_inv_head in Hinv as (_ & _ & _ & _ & _ & _ & Hfresh).
    rewrite size_add_fresh by done. lia.
Qed.

Lemma step_in_flight st e st' :
  well_formed st -> undisturbed e = true -> step st e = Some st' ->
  running st = Z.of_nat (size (awaiting st)) ->
  running st' = Z.of_nat (size (awaiting st')).
Proof.
  intros Hwf Hcalm Hstep Hcount.
  destruct e as [t o|i [v|err]|i| | | |ms|w|w]; simpl in Hstep, Hcalm;
    repeat case_bool_decide; simplify_eq; try done.
  - apply processQueue_from_in_flight; [|done].
    by apply enqueue_well_formed.
  - apply processQueue_from_in_flight.
    + by apply (after_await_well_formed i (inl v)).
    + simpl. rewrite size_remove_member by done. lia.
  - by destruct (onIdle_same st) as (_ & _ & -> & _ & _ & _ & _ & ->).
  - by destruct (onIdleWithTimeout_same ms st)
      as (_ & _ & -> & _ & _ & _ & _ & ->).
  - by destruct (poll_callback_same w st)
      as (_ & _ & -> & _ & _ & _ & _ & ->).
Qed.

(** ** Steps and the counters *)

Lemma step_counters st e st' :
  keeps_counters e = true -> step st e = Some st' ->
  total (stats st') - accounted st' = total (stats st) - accounted st /\
  backlog_gap st' = backlog_gap st.
Proof.
  intros Hkeep Hstep.
  destruct e as [t o|i r|i| | | |ms|w|w]; simpl in Hstep, Hkeep;
    repeat case_bool_decide; simplify_eq.
  - unfold addTask.
    destruct (processQueue_counters (enqueue t o st)) as (-> & -> & ->).
    unfold accounted, backlog_gap. simpl.
    rewrite array_sort_length, length_app. simpl. lia.
  - unfold await_continuation.
    destruct (processQueue_counters (after_await i r st)) as (-> & -> & ->).
    unfold accounted, backlog_gap. destruct r; simpl; lia.
  - unfold timeout_callback.
    destruct (processQueue_counters (on_timeout i st)) as (-> & -> & ->).
    unfold accounted, backlog_gap. simpl. lia.
  - unfold accounted, backlog_gap.
    by destruct (onIdle_same st) as (_ & -> & -> & -> & _).
  - unfold accounted, backlog_gap.
    by destruct (onIdleWithTimeout_same ms st) as (_ & -> & -> & -> & _).
  - unfold accounted, backlog_gap.
    by destruct (poll_callback_same w st) as (_ & -> & -> & -> & _).
  - done.
Qed.

Lemma run_counters st evs st' :
  forallb keeps_counters evs = true -> run st evs = Some st' ->
  total (stats st') - accounted st' = total (stats st) - accounted st /\
  backlog_gap st' = backlog_gap st.
Proof.
  revert st. induction evs as [|e evs IH]; intros st Hkeep Hrun;
    simpl in Hrun, Hkeep.
  - by simplify_eq.
  - apply andb_prop in Hkeep as [He Hevs].
    destruct (step st e) as [s|] eqn:Hstep; [|done].
    destruct (IH _ Hevs Hrun) as [-> ->]. by apply (step_counters st e).
Qed.

(** ** Idle waits *)


















Lemma run_in_flight st evs st' :
  well_formed st -> forallb undisturbed evs = true ->
  run st evs = Some st' ->
  running st = Z.of_nat (size (awaiting st)) ->
  running st' = Z.of_nat (size (awaiting st')).
Proof.
  revert st. induction evs as [|e evs IH]; intros st Hwf Hcalm Hrun Hcount;
    simpl in Hrun, Hcalm.
  - by simplify_eq.
  - apply andb_prop in Hcalm as [He Hevs].
    destruct (step st e) as [s|] eqn:Hstep; [|done].
    apply (IH s); [by eapply step_well_formed|done|done|].
    by apply (step_in_flight st e).
Qed.





(** The [clearTimeout] of the success path, and its absence from the
    [catch] block. *)
Lemma completion_disarms_timer i v st :
  well_formed st -> i ∈ awaiting st ->
  i ∉ timers (await_continuation i (inl v) st).
Proof.
  intros Hwf Hi. unfold await_continuation, processQueue.
  destruct (processQueue_from_started (queue (after_await i (inl v) st))
    (after_await i (inl v) st)) as (started & Hq & -> & _ & _).
  simpl in *. intros [Hin|Hin]%elem_of_union; [set_solver|].
  apply elem_of_list_to_set, list_elem_of_fmap_1 in Hin as (x & -> & Hx).
  destruct Hwf as [_ _ Hqueued _ _]. rewrite Forall_forall in Hqueued.
  destruct (Hqueued x) as (_ & _ & _ & Hnot); [|done].
  rewrite Hq. apply elem_of_app. by left.
Qed.

Lemma failure_keeps_timer i e st :
  i ∈ timers st -> i ∈ timers (await_continuation i (inr e) st).
Proof.
  intros Hi. unfold await_continuation, processQueue.
  destruct (processQueue_from_started (queue (after_await i (inr e) st))
    (after_await i (inr e) st)) as (started & _ & -> & _ & _).
  simpl. set_solver.
Qed.

(** With a valid configuration the limit is positive, and the health
    check, which compares [running] with twice the limit, always passes. *)
Lemma constructor_limit_positive config :
  valid_config config -> 0 < concurrency (constructor config).
Proof.
  unfold valid_config; simpl.
  destruct (cfg_concurrency config) as [c|]; simpl; [|lia].
  destruct (Z.eqb_spec c 0); lia.
Qed.

Lemma isHealthy_always config st :
  valid_config config -> reachable config st ->
  isHealthy (getHealth st) = true.
Proof.
  intros Hcfg Hreach.
  pose proof (reachable_running _ _ Hcfg Hreach) as Hle.
  destruct Hreach as [evs Hrun].
  pose proof (run_concurrency _ _ _ Hrun) as Hc.
  pose proof (constructor_limit_positive _ Hcfg).
  unfold getHealth. simpl. apply Z.ltb_lt. lia.
Qed.

(** ** The concurrency limit *)

(** C1, evaluated. Under a limit of one a task is started, its timer
    fires ([running--], line 63) and its operation completes afterwards
    ([running--] again, line 74): [running] is -1, and the gate lets in the
    next two submissions.  Both are then in progress at once, awaited under
    armed timers with unsettled promises, while [running] reads 1. *)
Theorem limit_exceeded_after_timeout :
  let st := after (limit 1) overrun in
  run (constructor (limit 1)) overrun = Some st /\
  concurrency st = 1 /\
  running st = 1 /\
  queue st = [] /\
  1%nat ∈ awaiting st /\ 2%nat ∈ awaiting st /\
  1%nat ∈ timers st /\ 2%nat ∈ timers st /\
  promises st !! 1%nat = None /\ promises st !! 2%nat = None /\
  size (awaiting st) = 2%nat /\
  concurrency st < Z.of_nat (size (awaiting st)).
Proof.
  split_and!;
    first [ apply (bool_decide_unpack _); vm_compute; exact I
          | vm_compute; reflexivity ].
Qed.

(** X18. For every configured limit (absent, or not negative) and every
    sequence of events, the counter [running] never exceeds the limit; and
    as long as no awaited task fails and no task timer fires, that counter
    is the number of tasks whose execution is in progress. *)
Theorem running_never_exceeds_limit (config : Config) (evs : list Event)
    (st : State) :
  valid_config config ->
  run (constructor config) evs = Some st ->
  running st <= concurrency (constructor config) /\
  concurrency st = concurrency (constructor config) /\
  (forallb undisturbed evs = true ->
   running st = Z.of_nat (size (awaiting st))).
Proof.
  intros Hcfg Hrun.
  pose proof (run_concurrency _ _ _ Hrun) as Hc.
  split_and!; [|done|].
  - rewrite <- Hc. apply (reachable_running config); [done|]. by exists evs.
  - intros Hcalm.
    apply (run_in_flight (constructor config) evs); try done.
    apply constructor_well_formed.
Qed.

Lemma running_never_exceeds_limit_witness :
  running (after (limit 2) burst) <= concurrency (constructor (limit 2)) /\
  concurrency (after (limit 2) burst) = concurrency (constructor (limit 2)) /\
  (forallb undisturbed burst = true ->
   running (after (limit 2) burst) =
   Z.of_nat (size (awaiting (after (limit 2) burst)))).
Proof.
  apply (running_never_exceeds_limit (limit 2) burst).
  - unfold valid_config. simpl. lia.
  - vm_compute. reflexivity.
Defined.

(** ** The counters *)

(** C2. After any sequence of submissions, completions, failures and timer
    firings (idle waits included), [total] is the sum of [completed],
    [failed], [running] and [pending], and [pending] is the length of the
    queue. *)
Theorem counters_balance (config : Config) (evs : list Event) (st : State) :
  forallb keeps_counters evs = true ->
  run (constructor config) evs = Some st ->
  total (stats st) =
    completed (stats st) + failed (stats st) + running st + pending (stats st) /\
  pending (stats st) = Z.of_nat (length (queue st)).
Proof.
  intros Hkeep Hrun.
  destruct (run_counters _ _ _ Hkeep Hrun) as [Hsum Hgap].
  unfold accounted, backlog_gap in *. simpl in *. lia.
Qed.

Lemma counters_balance_witness :
  let st := after (limit 1)
    (burst ++ [TaskSettles 0%nat (inr "boom"%string); TimeoutFires 0%nat;
               TimeoutFires 1%nat]) in
  total (stats st) =
    completed (stats st) + failed (stats st) + running st + pending (stats st) /\
  pending (stats st) = Z.of_nat (length (queue st)).
Proof.
  apply (counters_balance (limit 1)
    (burst ++ [TaskSettles 0%nat (inr "boom"%string); TimeoutFires 0%nat;
               TimeoutFires 1%nat])).
  - reflexivity.
  - vm_compute. reflexivity.
Defined.

(** ** The snapshot *)



(** ** Timers *)

(** C4, evaluated. A task is started, its operation fails, and later its
    timer, which the [catch] block did not clear, fires: the failure is
    counted a second time and [running] drops to -1. *)
Theorem failed_task_timer_still_fires :
  let st := after (limit 1)
    [AddTask Awaits no_options; TaskSettles 0%nat (inr "boom"%string)] in
  run (constructor (limit 1))
    [AddTask Awaits no_options; TaskSettles 0%nat (inr "boom"%string)]
    = Some st /\
  promises st !! 0%nat = Some (Rejected "boom") /\
  0%nat ∈ timers st /\
  failed (stats st) = 1 /\ running st = 0 /\
  exists st',
    step st (TimeoutFires 0%nat) = Some st' /\
    failed (stats st') = 2 /\ running st' = -1.
Proof.
  split_and!.
  - vm_compute. reflexivity.
  - vm_compute. reflexivity.
  - apply (bool_decide_unpack _). vm_compute. exact I.
  - reflexivity.
  - reflexivity.
  - eexists. split_and!.
    + vm_compute. reflexivity.
    + reflexivity.
    + reflexivity.
Qed.

(** C5. When the timer of a started task fires while its operation is
    still awaited, the task's promise is rejected with the timeout error,
    [failed] goes up by one and [running] down by one, and [processQueue]
    runs with the gate open: the task at the head of the queue, if there is
    one, is started and leaves the queue. *)
Theorem timeout_fails_task_and_frees_slot (config : Config) (st : State)
    (i : nat) :
  valid_config config -> reachable config st ->
  i ∈ timers st -> i ∈ awaiting st ->
  exists st',
    step st (TimeoutFires i) = Some st' /\
    st' = processQueue (on_timeout i st) /\
    promises st' !! i = Some (Rejected Task_timeout) /\
    failed (stats (on_timeout i st)) = failed (stats st) + 1 /\
    running (on_timeout i st) = running st - 1 /\
    running (on_timeout i st) < concurrency (on_timeout i st) /\
    (queue st = [] ->
     failed (stats st') = failed (stats st) + 1 /\
     running st' = running st - 1) /\
    (forall x rest, queue st = x :: rest ->
       item_id x ∈ timers st' /\ (x ∉ queue st') /\
       (task x = Awaits ->
        queue st' = rest /\ item_id x ∈ awaiting st' /\
        failed (stats st') = failed (stats st) + 1 /\
        running st' = running st)).
Proof.
  intros Hcfg Hreach Htimer Hawait.
  pose proof (reachable_running _ _ Hcfg Hreach) as Hle.
  pose proof (reachable_well_formed _ _ Hreach) as Hwf.
  exists (timeout_callback i st). unfold timeout_callback.
  assert (running (on_timeout i st) < concurrency (on_timeout i st)) as Hopen.
  { simpl. lia. }
  destruct (processQueue_from_started (queue (on_timeout i st))
    (on_timeout i st)) as (started & Hq & Ht & Hp & Hne).
  fold (processQueue (on_timeout i st)) in Hq, Ht, Hp.
  change (queue (on_timeout i st)) with (queue st) in Hq, Hne.
  destruct Hwf as [Hs Hn Hqueued Hb Hu].
  rewrite Forall_forall in Hqueued.
  split_and!; try done.
  - simpl. by rewrite bool_decide_eq_true_2.
  - destruct (Hp i) as [-> _].
    + intros (x & -> & Hx)%list_elem_of_fmap_1.
      destruct (Hqueued x) as (_ & _ & Hnot & _); [|done].
      rewrite Hq. apply elem_of_app. by left.
    + simpl. apply lookup_settle_in_fresh. by apply Hu.
  - intros Hempty. unfold processQueue.
    change (queue (on_timeout i st)) with (queue st). rewrite Hempty.
    simpl. lia.
  - intros x rest Hqueue.
    destruct started as [|x' started'].
    { exfalso. apply Hne; [done| |done]. by rewrite Hqueue. }
    rewrite Hqueue in Hq. simpl in Hq. injection Hq as <- Hrest.
    split_and!.
    + rewrite Ht. simpl. set_solver.
    + intros Hin. rewrite Hqueue, fmap_cons in Hn.
      apply NoDup_cons in Hn as [Hfresh _]. apply Hfresh.
      apply list_elem_of_fmap_2. rewrite Hrest. apply elem_of_app. by right.
    + intros Htask. unfold processQueue.
      change (queue (on_timeout i st)) with (queue st). rewrite Hqueue.
      rewrite processQueue_from_awaits by done. simpl.
      split_and!; [done|set_solver|lia|lia].
Qed.

Lemma timeout_fails_task_and_frees_slot_witness :
  exists st',
    step (after (limit 1) burst) (TimeoutFires 0%nat) = Some st' /\
    st' = processQueue (on_timeout 0%nat (after (limit 1) burst)) /\
    promises st' !! 0%nat = Some (Rejected Task_timeout) /\
    failed (stats (on_timeout 0%nat (after (limit 1) burst))) =
      failed (stats (after (limit 1) burst)) + 1 /\
    running (on_timeout 0%nat (after (limit 1) burst)) =
      running (after (limit 1) burst) - 1 /\
    running (on_timeout 0%nat (after (limit 1) burst)) <
      concurrency (on_timeout 0%nat (after (limit 1) burst)) /\
    (queue (after (limit 1) burst) = [] ->
     failed (stats st') = failed (stats (after (limit 1) burst)) + 1 /\
     running st' = running (after (limit 1) burst) - 1) /\
    (forall x rest, queue (after (limit 1) burst) = x :: rest ->
       item_id x ∈ timers st' /\ (x ∉ queue st') /\
       (task x = Awaits ->
        queue st' = rest /\ item_id x ∈ awaiting st' /\
        failed (stats st') = failed (stats (after (limit 1) burst)) + 1 /\
        running st' = running (after (limit 1) burst))).
Proof.
  apply (timeout_fails_task_and_frees_slot (limit 1) (after (limit 1) burst)).
  - unfold valid_config. simpl. lia.
  - exists burst. vm_compute. reflexivity.
  - apply (bool_decide_unpack _). vm_compute. exact I.
  - apply (bool_decide_unpack _). vm_compute. exact I.
Defined.

(** ** Order of service *)

(** C6. Among the tasks that wait when an event evaluates the gate, a task
    the event starts has a higher priority than every task it leaves in the
    queue, or the same priority and an earlier submission. *)
Theorem admission_order (config : Config) (st : State) (e : Event)
    (st' : State) (x y : QueueItem) :
  reachable config st -> step st e = Some st' ->
  x ∈ candidates st e -> item_id x ∈ timers st' -> y ∈ queue st' ->
  priority y < priority x \/
  (priority x = priority y /\ (item_id x < item_id y)%nat).
Proof.
  intros Hreach Hstep Hx Hstarted Hy.
  pose proof (reachable_well_formed _ _ Hreach) as Hwf.
  assert (forall z, z ∈ queue st -> item_id z ∉ timers st) as Hwaiting.
  { intros z Hz. destruct Hwf as [_ _ Hq _ _].
    rewrite Forall_forall in Hq. by destruct (Hq z Hz) as (_ & _ & ? & _). }
  change (served_before x y).
  destruct e as [t o|i r|i| | | |ms|w|w]; simpl in Hstep, Hx;
    repeat case_bool_decide; simplify_eq.
  - apply (processQueue_order (enqueue t o st));
      [by apply enqueue_well_formed| |done|done].
    simpl. by rewrite array_sort_Permutation.
  - apply (processQueue_order (after_await i r st));
      [by apply after_await_well_formed| |done|done].
    by destruct r.
  - apply (processQueue_order (on_timeout i st));
      [by apply on_timeout_well_formed|done|done|done].
  - by apply elem_of_nil in Hy.
  - by destruct (Hwaiting x Hx).
  - destruct (onIdle_same st) as (_ & _ & _ & _ & _ & _ & Ht & _).
    rewrite Ht in Hstarted. by destruct (Hwaiting x Hx).
  - destruct (onIdleWithTimeout_same ms st)
      as (_ & _ & _ & _ & _ & _ & Ht & _).
    rewrite Ht in Hstarted. by destruct (Hwaiting x Hx).
  - destruct (poll_callback_same w st) as (_ & _ & _ & _ & _ & _ & Ht & _).
    rewrite Ht in Hstarted. by destruct (Hwaiting x Hx).
  - by destruct (Hwaiting x Hx).
Qed.

Lemma admission_order_witness :
  let x := {| item_id := 2; task := Awaits; item_timeout := 30000;
              priority := 5 |} in
  let y := {| item_id := 3; task := Awaits; item_timeout := 30000;
              priority := 5 |} in
  priority y < priority x \/
  (priority x = priority y /\ (item_id x < item_id y)%nat).
Proof.
  intros x y.
  apply (admission_order (limit 1) (after (limit 1) saturated)
           (TaskSettles 0%nat (inl undefined))
           (after (limit 1) (saturated ++ [TaskSettles 0%nat (inl undefined)]))).
  - exists saturated. vm_compute. reflexivity.
  - vm_compute. reflexivity.
  - vm_compute. repeat constructor.
  - apply (bool_decide_unpack _). vm_compute. exact I.
  - vm_compute. repeat constructor.
Defined.

(** ** [clear] *)

(** C7. [clear] rejects the promise of every queued task with the
    queue-cleared error, empties the queue and sets [pending] to zero; the
    tasks already started keep their timers, their awaits and their
    promises, and [running] is unchanged. *)
Theorem clear_rejects_queued (config : Config) (st : State) :
  reachable config st ->
  (forall x, x ∈ queue st ->
     promises (clear st) !! item_id x = Some (Rejected Queue_cleared)) /\
  queue (clear st) = [] /\
  pending (stats (clear st)) = 0 /\
  running (clear st) = running st /\
  timers (clear st) = timers st /\
  awaiting (clear st) = awaiting st /\
  (forall i, i ∈ timers st \/ i ∈ awaiting st ->
     promises (clear st) !! i = promises st !! i).
Proof.
  intros Hreach.
  destruct (reachable_well_formed _ _ Hreach) as [_ _ Hq _ _].
  rewrite Forall_forall in Hq.
  split_and!; try done.
  - intros x Hx. simpl. destruct (Hq x Hx) as (_ & Hnone & _).
    apply reject_all_queued; [|done]. by apply list_elem_of_fmap_2.
  - intros i Hi. simpl. apply reject_all_other.
    intros (x & -> & Hx)%list_elem_of_fmap_1.
    destruct (Hq x Hx) as (_ & _ & ? & ?). tauto.
Qed.

Lemma clear_rejects_queued_witness :
  (forall x, x ∈ queue (after (limit 1) burst) ->
     promises (clear (after (limit 1) burst)) !! item_id x
     = Some (Rejected Queue_cleared)) /\
  queue (clear (after (limit 1) burst)) = [] /\
  pending (stats (clear (after (limit 1) burst))) = 0 /\
  running (clear (after (limit 1) burst)) = running (after (limit 1) burst) /\
  timers (clear (after (limit 1) burst)) = timers (after (limit 1) burst) /\
  awaiting (clear (after (limit 1) burst))
  = awaiting (after (limit 1) burst) /\
  (forall i, i ∈ timers (after (limit 1) burst) \/
             i ∈ awaiting (after (limit 1) burst) ->
     promises (clear (after (limit 1) burst)) !! i
     = promises (after (limit 1) burst) !! i).
Proof.
  apply (clear_rejects_queued (limit 1) (after (limit 1) burst)).
  exists burst. vm_compute. reflexivity.
Defined.

(** ** Health *)

(** C8, evaluated. With a limit of one, one task running and two waiting,
    the backlog is twice the limit, and [getHealth] still reports
    [isHealthy]: it compares the snapshot's [pending], which is [running],
    with twice the limit. *)
Theorem isHealthy_ignores_backlog :
  let st := after (limit 1) burst in
  run (constructor (limit 1)) burst = Some st /\
  concurrency st = 1 /\
  length (queue st) = 2%nat /\
  pending (stats st) = 2 /\
  running st = 1 /\
  isHealthy (getHealth st) = true.
Proof.
  split_and!; vm_compute; reflexivity.
Qed.

(** ** Waiting for the queue to drain *)



(** ** [resetStats] *)

(** C10, as the code has it. [resetStats] sets [total], [completed],
    [failed] and [pending] to zero and leaves the queue, [running], and the
    promises, timers and awaits of all tasks as they are.  When tasks are
    queued, [pending] then differs from the length of the queue, and it
    stays below it by the number of tasks that were queued at the reset
    for as long as neither [clear] nor [resetStats] runs. *)
Theorem resetStats_zeroes_counters (st : State) :
  stats (resetStats st)
  = {| total := 0; completed := 0; failed := 0; pending := 0 |} /\
  queue (resetStats st) = queue st /\
  running (resetStats st) = running st /\
  promises (resetStats st) = promises st /\
  timers (resetStats st) = timers st /\
  awaiting (resetStats st) = awaiting st /\
  (queue st <> [] ->
   pending (stats (resetStats st))
   <> Z.of_nat (length (queue (resetStats st)))) /\
  (forall evs st',
     forallb keeps_counters evs = true ->
     run (resetStats st) evs = Some st' ->
     pending (stats st')
     = Z.of_nat (length (queue st')) - Z.of_nat (length (queue st))).
Proof.
  split_and!; try done.
  - simpl. destruct (queue st); [done|]. simpl. lia.
  - intros evs st' Hkeep Hrun.
    destruct (run_counters _ _ _ Hkeep Hrun) as [_ Hgap].
    unfold backlog_gap in Hgap. simpl in Hgap. lia.
Qed.

(** C10, as stated, fails: the task that was queued at the reset has been
    started, the queue is empty, and [pending] is -1. *)
Lemma pending_not_restored_by_admission :
  exists st,
    run (constructor (limit 1)) reset_then_start = Some st /\
    queue st = [] /\ 1%nat ∈ awaiting st /\
    pending (stats st) = -1 /\
    pending (stats st) <> Z.of_nat (length (queue st)).
Proof.
  exists (after (limit 1) reset_then_start). split_and!.
  - vm_compute. reflexivity.
  - vm_compute. reflexivity.
  - apply (bool_decide_unpack _). vm_compute. exact I.
  - vm_compute. reflexivity.
  - vm_compute. discriminate.
Qed.

(** ** A consequence of the timer that is not cleared *)

(** The same through a failure: after a failure whose timer fires later,
    the counter has been decremented twice for one task, and two
    operations are awaited at once under a limit of one. *)
Lemma double_decrement_overbooks :
  let st := after (limit 1) overbooked in
  run (constructor (limit 1)) overbooked = Some st /\
  concurrency st = 1 /\ running st = 1 /\ size (awaiting st) = 2%nat.
Proof.
  split_and!; vm_compute; reflexivity.
Qed.

(** * Further properties of the scheduler *)

(** ** No task waits while a slot is free *)

Lemma processQueue_from_conserving q st :
  (length q <= 1)%nat \/ concurrency st <= running st + 1 ->
  work_conserving (processQueue_from q st).
Proof.
  apply (processQueue_from_cases (fun q st st' =>
    (length q <= 1)%nat \/ concurrency st <= running st + 1 ->
    work_conserving st')); clear; unfold work_conserving.
  - intros st _. by left.
  - intros item q st Hfull _. by right.
  - intros item q st e Hopen _ IH Hpre. apply IH.
    simpl in *. destruct Hpre as [Hlen|Hnear]; [left|right]; lia.
  - intros item q st Hopen _ Hpre. simpl in *.
    destruct Hpre as [Hlen|Hnear]; [left|right; lia].
    destruct q; [done|simpl in Hlen; lia].
Qed.

Lemma step_work_conserving st e st' :
  work_conserving st -> step st e = Some st' -> work_conserving st'.
Proof.
  intros Hw Hstep.
  destruct e as [t o|i r|i| | | |ms|w|w]; simpl in Hstep;
    repeat case_bool_decide; simplify_eq.
  - apply processQueue_from_conserving. simpl.
    rewrite array_sort_length, length_app. simpl.
    destruct Hw as [->|Hfull]; [left; simpl; lia|right; lia].
  - apply processQueue_from_conserving.
    destruct Hw as [Hq|Hfull].
    + left. destruct r; simpl; rewrite Hq; simpl; lia.
    + right. destruct r; simpl; lia.
  - apply processQueue_from_conserving.
    destruct Hw as [Hq|Hfull]; simpl; [left; rewrite Hq; simpl|right]; lia.
  - by left.
  - done.
  - unfold work_conserving.
    by destruct (onIdle_same st) as (-> & -> & -> & _).
  - unfold work_conserving.
    by destruct (onIdleWithTimeout_same ms st) as (-> & -> & -> & _).
  - unfold work_conserving.
    by destruct (poll_callback_same w st) as (-> & -> & -> & _).
  - done.
Qed.

(** X1. In every state an execution reaches, tasks wait only while the
    gate is closed: if the queue is not empty then [running] has reached
    the limit.  With a valid configuration [running] then equals the
    limit. *)
Theorem queued_only_when_saturated (config : Config) (st : State) :
  reachable config st -> queue st <> [] ->
  concurrency st <= running st /\
  (valid_config config -> running st = concurrency st).
Proof.
  intros Hreach Hq.
  assert (work_conserving st) as [Hempty|Hfull].
  { destruct Hreach as [evs Hrun].
    eapply (run_invariant work_conserving); [| |done].
    - intros s e s'. apply step_work_conserving.
    - by left. }
  - done.
  - split; [done|]. intros Hcfg.
    pose proof (reachable_running _ _ Hcfg Hreach). lia.
Qed.

Lemma queued_only_when_saturated_witness :
  concurrency (after (limit 1) burst) <= running (after (limit 1) burst) /\
  (valid_config (limit 1) ->
   running (after (limit 1) burst) = concurrency (after (limit 1) burst)).
Proof.
  apply (queued_only_when_saturated (limit 1) (after (limit 1) burst)).
  - exists burst. vm_compute. reflexivity.
  - vm_compute. discriminate.
Defined.

(** ** Every task is answered, once *)

Lemma lookup_settle_in_is_Some i o (m : gmap nat outcome) :
  is_Some (settle_in i o m !! i).
Proof.
  unfold settle_in. destruct (m !! i) eqn:Hm.
  - by rewrite Hm.
  - by rewrite lookup_insert_eq.
Qed.

Lemma settle_in_keeps i j o o' (m : gmap nat outcome) :
  m !! j = Some o' -> settle_in i o m !! j = Some o'.
Proof.
  intros Hm. destruct (decide (i = j)) as [->|Hne].
  - by erewrite lookup_settle_in_settled.
  - by rewrite lookup_settle_in_ne.
Qed.

Lemma reject_all_is_Some q m i :
  i ∈ (item_id <$> q) -> is_Some (reject_all q m !! i).
Proof.
  intros Hi. destruct (m !! i) as [o|] eqn:Hm.
  - by erewrite reject_all_settled.
  - by rewrite reject_all_queued.
Qed.

Lemma processQueue_from_all_answered q st :
  all_answered q st ->
  all_answered (queue (processQueue_from q st)) (processQueue_from q st).
Proof.
  apply (processQueue_from_cases (fun q st st' =>
    all_answered q st -> all_answered (queue st') st')); clear.
  - done.
  - done.
  - intros item q st e _ _ st' IH Hall. apply IH.
    intros i Hi Hnone. subst st'. simpl in *.
    assert (i <> item_id item) as Hne.
    { intros ->. by destruct (lookup_settle_in_is_Some (item_id item)
        (Rejected e) (promises st)) as [? ?]; simplify_eq. }
    rewrite lookup_settle_in_ne in Hnone by done.
    destruct (Hall i Hi Hnone) as [Hin|[Ha Ht]].
    + left. rewrite fmap_cons in Hin. set_solver.
    + right. set_solver.
  - intros item q st _ _ Hall i Hi Hnone. simpl in *.
    destruct (decide (i = item_id item)) as [->|Hne]; [right; set_solver|].
    destruct (Hall i Hi Hnone) as [Hin|[Ha Ht]].
    + left. rewrite fmap_cons in Hin. set_solver.
    + right. set_solver.
Qed.

Lemma step_all_answered st e st' :
  all_answered (queue st) st -> step st e = Some st' ->
  all_answered (queue st') st'.
Proof.
  intros Hall Hstep.
  destruct e as [t o|i r|i| | | |ms|w|w]; simpl in Hstep;
    repeat case_bool_decide; simplify_eq.
  - apply processQueue_from_all_answered.
    intros i Hi Hnone. simpl in *.
    rewrite array_sort_Permutation, fmap_app. simpl.
    destruct (decide (i = next_id st)) as [->|Hne]; [left; set_solver|].
    destruct (Hall i) as [Hin|Hrun]; [lia|done|left; set_solver|by right].
  - apply processQueue_from_all_answered.
    intros j Hj Hnone.
    assert (j <> i) as Hne.
    { intros ->. destruct r; simpl in Hnone;
        match goal with
        | H : settle_in i ?o ?m !! i = None |- _ =>
            destruct (lookup_settle_in_is_Some i o m) as [? ?]; simplify_eq
        end. }
    destruct r; simpl in *; rewrite lookup_settle_in_ne in Hnone by done;
      (destruct (Hall j Hj Hnone) as [Hin|[Ha Ht]]; [by left|right]);
      set_solver.
  - apply processQueue_from_all_answered.
    intros j Hj Hnone. simpl in *.
    assert (j <> i) as Hne.
    { intros ->. destruct (lookup_settle_in_is_Some i
        (Rejected Task_timeout) (promises st)) as [? ?]; simplify_eq. }
    rewrite lookup_settle_in_ne in Hnone by done.
    destruct (Hall j Hj Hnone) as [Hin|[Ha Ht]]; [by left|right].
    set_solver.
  - intros j Hj Hnone. simpl in *. right.
    destruct (decide (j ∈ item_id <$> queue st)) as [Hin|Hout].
    + destruct (reject_all_is_Some (queue st) (promises st) j Hin) as [? ?].
      simplify_eq.
    + rewrite reject_all_other in Hnone by done.
      by destruct (Hall j Hj Hnone).
  - done.
  - unfold all_answered.
    by destruct (onIdle_same st) as (_ & -> & _ & _ & -> & -> & -> & ->).
  - unfold all_answered.
    by destruct (onIdleWithTimeout_same ms st)
      as (_ & -> & _ & _ & -> & -> & -> & ->).
  - unfold all_answered.
    by destruct (poll_callback_same w st)
      as (_ & -> & _ & _ & -> & -> & -> & ->).
  - done.
Qed.

Lemma reachable_all_answered config st :
  reachable config st -> all_answered (queue st) st.
Proof.
  intros [evs Hrun].
  eapply (run_invariant (fun s => all_answered (queue s) s)); [| |done].
  - intros s e s'. apply step_all_answered.
  - intros j Hj. simpl in Hj. lia.
Qed.

(** X2. In every state an execution reaches, the promise of a submitted
    task is unsettled exactly when the task is queued, or is awaited under
    a timer that is still armed: every other task has been answered. *)
Theorem promise_pending_iff (config : Config) (st : State) (i : nat) :
  reachable config st -> (i < next_id st)%nat ->
  promises st !! i = None <->
  i ∈ queued st \/ (i ∈ awaiting st /\ i ∈ timers st).
Proof.
  intros Hreach Hi. split.
  - by apply (reachable_all_answered config).
  - destruct (reachable_well_formed _ _ Hreach) as [_ _ Hq _ Hu].
    intros [Hin|[Ha Ht]]; [|by apply Hu].
    apply list_elem_of_fmap_1 in Hin as (x & -> & Hx).
    rewrite Forall_forall in Hq. by destruct (Hq x Hx) as (_ & ? & _).
Qed.

Lemma promise_pending_iff_witness :
  promises (after (limit 1) burst) !! 1%nat = None <->
  1%nat ∈ queued (after (limit 1) burst) \/
  (1%nat ∈ awaiting (after (limit 1) burst) /\
   1%nat ∈ timers (after (limit 1) burst)).
Proof.
  apply (promise_pending_iff (limit 1) (after (limit 1) burst) 1%nat).
  - exists burst. vm_compute. reflexivity.
  - vm_compute. lia.
Defined.

Lemma processQueue_from_keeps q st i o :
  promises st !! i = Some o ->
  promises (processQueue_from q st) !! i = Some o.
Proof.
  apply (processQueue_from_cases (fun q st st' =>
    promises st !! i = Some o -> promises st' !! i = Some o)); clear q st.
  - done.
  - done.
  - intros item q st e _ _ st' IH Hsome. apply IH. subst st'. simpl.
    by apply settle_in_keeps.
  - done.
Qed.

Lemma step_keeps_outcome st e st' i o :
  step st e = Some st' -> promises st !! i = Some o ->
  promises st' !! i = Some o.
Proof.
  intros Hstep Hsome.
  destruct e as [t op|j r|j| | | |ms|w|w]; simpl in Hstep;
    repeat case_bool_decide; simplify_eq; try done.
  - by apply processQueue_from_keeps.
  - apply processQueue_from_keeps. destruct r; simpl;
      by apply settle_in_keeps.
  - apply processQueue_from_keeps. simpl. by apply settle_in_keeps.
  - simpl. by apply reject_all_settled.
  - by destruct (onIdle_same st) as (_ & _ & _ & _ & _ & -> & _).
  - by destruct (onIdleWithTimeout_same ms st)
      as (_ & _ & _ & _ & _ & -> & _).
  - by destruct (poll_callback_same w st) as (_ & _ & _ & _ & _ & -> & _).
Qed.

(** X3. The answer a task's caller has received is final: once a promise
    is settled, no later event (a late timer, a late completion, [clear])
    changes its outcome. *)
Theorem outcome_is_final (st : State) (evs : list Event) (st' : State)
    (i : nat) (o : outcome) :
  run st evs = Some st' -> promises st !! i = Some o ->
  promises st' !! i = Some o.
Proof.
  revert st. induction evs as [|e evs IH]; intros st Hrun Hsome;
    simpl in Hrun.
  - by simplify_eq.
  - destruct (step st e) as [s|] eqn:Hstep; [|done].
    apply (IH s); [done|]. by apply (step_keeps_outcome st e).
Qed.

Lemma outcome_is_final_witness :
  promises
    (after (limit 1)
       [AddTask Awaits no_options; TimeoutFires 0%nat;
        TaskSettles 0%nat (inl (payload 7))]) !! 0%nat
  = Some (Rejected Task_timeout).
Proof.
  apply (outcome_is_final
           (after (limit 1) [AddTask Awaits no_options; TimeoutFires 0%nat])
           [TaskSettles 0%nat (inl (payload 7))]).
  - vm_compute. reflexivity.
  - vm_compute. reflexivity.
Defined.

(** ** Where a new task is placed *)

Lemma served_before_priority a b : served_before a b -> priority b <= priority a.
Proof. unfold served_before. lia. Qed.

Lemma sort_insert_front x l :
  Forall (fun y => priority y <= priority x) l ->
  sort_insert by_priority x l = x :: l.
Proof.
  intros Hl. destruct l as [|y l]; [done|]. simpl.
  apply Forall_cons in Hl as [Hy _]. unfold by_priority.
  by destruct (Z.ltb_spec 0 (priority y - priority x)); [lia|].
Qed.

Lemma array_sort_push_position q x :
  StronglySorted served_before q ->
  exists q1 q2,
    q = q1 ++ q2 /\
    array_sort by_priority (q ++ [x]) = q1 ++ x :: q2 /\
    Forall (fun y => priority x <= priority y) q1 /\
    Forall (fun y => priority y < priority x) q2.
Proof.
  induction 1 as [|a q Hq IH Ha].
  - exists [], []. by repeat split.
  - destruct IH as (q1 & q2 & Heq & Hsort & H1 & H2).
    assert (Forall (fun y => priority y <= priority a) q) as Hle.
    { eapply Forall_impl; [exact Ha|]. apply served_before_priority. }
    simpl. rewrite Hsort.
    destruct (Z.le_gt_cases (priority x) (priority a)) as [Hxa|Hax].
    + exists (a :: q1), q2. split_and!.
      * by rewrite Heq.
      * rewrite sort_insert_front; [done|].
        rewrite Heq in Hle. apply Forall_app in Hle as [Hle1 Hle2].
        apply Forall_app. split; [done|]. by constructor.
      * by constructor.
      * done.
    + destruct q1 as [|b q1].
      * exists [], (a :: q2). simpl in *. subst q. split_and!.
        -- done.
        -- unfold by_priority at 1.
           destruct (Z.ltb_spec 0 (priority x - priority a)); [|lia].
           by rewrite sort_insert_front.
        -- done.
        -- constructor; [lia|done].
      * exfalso. apply Forall_cons in H1 as [Hb _].
        rewrite Heq in Hle. simpl in Hle.
        apply Forall_cons in Hle as [Hba _]. lia.
Qed.

(** X4. [addTask] puts the new item behind every queued item of the same
    or a higher priority and in front of every queued item of a lower
    priority, and keeps the other items in their order. *)
Theorem enqueue_position (config : Config) (st : State) (t : Task)
    (options : Options) :
  reachable config st ->
  exists q1 q2,
    queue st = q1 ++ q2 /\
    queue (enqueue t options st) = q1 ++ new_item t options st :: q2 /\
    Forall (fun y => priority (new_item t options st) <= priority y) q1 /\
    Forall (fun y => priority y < priority (new_item t options st)) q2.
Proof.
  intros Hreach.
  destruct (reachable_well_formed _ _ Hreach) as [Hs _ _ _ _].
  apply (array_sort_push_position _ (new_item t options st) Hs).
Qed.

Lemma enqueue_position_witness :
  exists q1 q2,
    queue (after (limit 1) saturated) = q1 ++ q2 /\
    queue (enqueue Awaits (with_priority 5) (after (limit 1) saturated))
    = q1 ++ new_item Awaits (with_priority 5) (after (limit 1) saturated)
         :: q2 /\
    Forall (fun y =>
      priority (new_item Awaits (with_priority 5) (after (limit 1) saturated))
      <= priority y) q1 /\
    Forall (fun y =>
      priority y
      < priority (new_item Awaits (with_priority 5)
                    (after (limit 1) saturated))) q2.
Proof.
  apply (enqueue_position (limit 1) (after (limit 1) saturated)).
  exists saturated. vm_compute. reflexivity.
Defined.

(** ** First come, first served *)

Lemma step_plain_priorities st e st' :
  plain e = true -> step st e = Some st' ->
  Forall (fun x => priority x = 0) (queue st) ->
  Forall (fun x => priority x = 0) (queue st').
Proof.
  intros Hplain Hstep Hzero.
  assert (forall s, Forall (fun x => priority x = 0) (queue s) ->
            Forall (fun x => priority x = 0) (queue (processQueue s)))
    as Hgate.
  { intros s Hs.
    destruct (processQueue_from_started (queue s) s) as (started & Hq & _).
    fold (processQueue s) in Hq. rewrite Hq in Hs.
    by apply Forall_app in Hs as [_ ?]. }
  destruct e as [t o|i r|i| | | |ms|w|w]; simpl in Hstep, Hplain;
    repeat case_bool_decide; simplify_eq; try done.
  - apply Hgate. simpl. rewrite array_sort_Permutation.
    apply Forall_app. split; [done|]. apply Forall_singleton. simpl. lia.
  - apply Hgate. by destruct r.
  - by apply Hgate.
  - by destruct (onIdle_same st) as (_ & -> & _).
  - by destruct (onIdleWithTimeout_same ms st) as (_ & -> & _).
  - by destruct (poll_callback_same w st) as (_ & -> & _).
Qed.

Lemma run_plain_priorities st evs st' :
  forallb plain evs = true -> run st evs = Some st' ->
  Forall (fun x => priority x = 0) (queue st) ->
  Forall (fun x => priority x = 0) (queue st').
Proof.
  revert st. induction evs as [|e evs IH]; intros st Hplain Hrun Hzero;
    simpl in Hrun, Hplain.
  - by simplify_eq.
  - apply andb_prop in Hplain as [He Hevs].
    destruct (step st e) as [s|] eqn:Hstep; [|done].
    apply (IH s); [done|done|]. by apply (step_plain_priorities st e).
Qed.

(** X5. When every submission leaves the priority at its default, the
    queue is in submission order: tasks wait, and are started, first come
    first served. *)
Theorem plain_queue_is_fifo (config : Config) (evs : list Event)
    (st : State) :
  forallb plain evs = true ->
  run (constructor config) evs = Some st ->
  StronglySorted (fun a b => (item_id a < item_id b)%nat) (queue st).
Proof.
  intros Hplain Hrun.
  assert (Forall (fun x => priority x = 0) (queue st)) as Hzero.
  { by apply (run_plain_priorities (constructor config) evs). }
  assert (well_formed st) as [Hs _ _ _ _].
  { apply (reachable_well_formed config). by exists evs. }
  clear -Hs Hzero. induction Hs as [|a q Hq IH Ha]; [constructor|].
  apply Forall_cons in Hzero as [Ha0 Hq0].
  constructor; [by apply IH|].
  rewrite Forall_forall in Ha, Hq0. apply Forall_forall. intros b Hb.
  specialize (Ha b Hb). specialize (Hq0 b Hb).
  unfold served_before in Ha. lia.
Qed.

Lemma plain_queue_is_fifo_witness :
  StronglySorted (fun a b => (item_id a < item_id b)%nat)
    (queue (after (limit 1) burst)).
Proof.
  apply (plain_queue_is_fifo (limit 1) burst).
  - reflexivity.
  - vm_compute. reflexivity.
Defined.

(** ** A negative limit *)

Lemma processQueue_from_closed q st :
  concurrency st <= running st -> processQueue_from q st = set_queue q st.
Proof.
  intros Hfull. destruct q as [|item q]; [done|]. simpl.
  by destruct (Z.leb_spec (concurrency st) (running st)); [|lia].
Qed.

(** X6. With a negative limit (as [QUEUE_CONCURRENCY=-1] gives) the gate
    never opens: no task is ever started, no timer is armed, and the only
    answer a caller can get is the rejection by [clear]. *)
Theorem negative_limit_starts_nothing (config : Config) (c : Z)
    (st : State) :
  cfg_concurrency config = Some c -> c < 0 ->
  reachable config st ->
  running st = 0 /\ timers st = ∅ /\ awaiting st = ∅ /\
  completed (stats st) = 0 /\ failed (stats st) = 0 /\
  forall i o, promises st !! i = Some o -> o = Rejected Queue_cleared.
Proof.
  intros Hc Hneg [evs Hrun].
  assert (concurrency (constructor config) < 0) as Hlimit.
  { simpl. rewrite Hc. simpl. destruct (Z.eqb_spec c 0); lia. }
  cut (concurrency st < 0 /\
    (running st = 0 /\ timers st = ∅ /\ awaiting st = ∅ /\
    completed (stats st) = 0 /\ failed (stats st) = 0 /\
    forall i o, promises st !! i = Some o -> o = Rejected Queue_cleared));
    [tauto|].
  apply (run_invariant (fun s =>
    concurrency s < 0 /\
    (running s = 0 /\ timers s = ∅ /\ awaiting s = ∅ /\
    completed (stats s) = 0 /\ failed (stats s) = 0 /\
    forall i o, promises s !! i = Some o -> o = Rejected Queue_cleared))
    (constructor config) evs st); [| |done].
  - intros s e s' (Hs & Hr & Ht & Ha & Hcomp & Hfail & Hp) Hstep.
    split; [by rewrite (step_concurrency _ _ _ Hstep)|].
    destruct e as [t o|i r|i| | | |ms|w|w]; simpl in Hstep;
      repeat case_bool_decide; simplify_eq; try set_solver.
    + unfold addTask, processQueue.
      rewrite processQueue_from_closed by (simpl; lia). done.
    + simpl. split_and!; try done. intros i o Hi.
      destruct (promises s !! i) as [o'|] eqn:Ho.
      * rewrite (reject_all_settled _ _ _ _ Ho) in Hi. simplify_eq. eauto.
      * destruct (decide (i ∈ item_id <$> queue s)) as [Hin|Hout].
        -- rewrite reject_all_queued in Hi by done. by simplify_eq.
        -- rewrite reject_all_other, Ho in Hi by done. done.
    + by destruct (onIdle_same s) as (_ & _ & -> & -> & _ & -> & -> & ->).
    + by destruct (onIdleWithTimeout_same ms s)
        as (_ & _ & -> & -> & _ & -> & -> & ->).
    + by destruct (poll_callback_same w s)
        as (_ & _ & -> & -> & _ & -> & -> & ->).
  - split; [done|]. simpl. split_and!; try done.
Qed.

Lemma negative_limit_starts_nothing_witness :
  running (after (limit (-1)) burst) = 0 /\
  timers (after (limit (-1)) burst) = ∅ /\
  awaiting (after (limit (-1)) burst) = ∅ /\
  completed (stats (after (limit (-1)) burst)) = 0 /\
  failed (stats (after (limit (-1)) burst)) = 0 /\
  forall i o, promises (after (limit (-1)) burst) !! i = Some o ->
              o = Rejected Queue_cleared.
Proof.
  apply (negative_limit_starts_nothing (limit (-1)) (-1)).
  - reflexivity.
  - lia.
  - exists burst. vm_compute. reflexivity.
Defined.

(** ** The statistics *)

Lemma step_total st e st' :
  is_ResetStats e = false -> step st e = Some st' ->
  total (stats st') = total (stats st) + (if is_AddTask e then 1 else 0).
Proof.
  intros Hno Hstep.
  destruct e as [t o|i r|i| | | |ms|w|w]; simpl in Hstep, Hno;
    repeat case_bool_decide; simplify_eq; simpl.
  - unfold addTask.
    by destruct (processQueue_counters (enqueue t o st)) as (-> & _).
  - unfold await_continuation.
    destruct (processQueue_counters (after_await i r st)) as (-> & _).
    destruct r; simpl; lia.
  - unfold timeout_callback.
    destruct (processQueue_counters (on_timeout i st)) as (-> & _).
    simpl. lia.
  - lia.
  - destruct (onIdle_same st) as (_ & _ & _ & -> & _). lia.
  - destruct (onIdleWithTimeout_same ms st) as (_ & _ & _ & -> & _). lia.
  - destruct (poll_callback_same w st) as (_ & _ & _ & -> & _). lia.
  - lia.
Qed.

(** X7. As long as [resetStats] is not called, [total] is the number of
    calls of [addTask]: nothing else changes it, not even [clear]. *)
Theorem total_counts_submissions (config : Config) (evs : list Event)
    (st : State) :
  forallb (fun e => negb (is_ResetStats e)) evs = true ->
  run (constructor config) evs = Some st ->
  total (stats st) = Z.of_nat (submissions evs).
Proof.
  intros Hno Hrun.
  assert (forall s s', forallb (fun e => negb (is_ResetStats e)) evs = true ->
            run s evs = Some s' ->
            total (stats s') = total (stats s)
              + Z.of_nat (submissions evs))
    as Hgen.
  { clear. induction evs as [|e evs IH]; intros s s' Hno Hrun;
      simpl in Hrun, Hno.
    - simplify_eq. simpl. lia.
    - apply andb_prop in Hno as [He Hevs]. apply negb_true_iff in He.
      destruct (step s e) as [s1|] eqn:Hstep; [|done].
      rewrite (IH _ _ Hevs Hrun), (step_total _ _ _ He Hstep).
      simpl. destruct (is_AddTask e); lia. }
  by rewrite (Hgen _ _ Hno Hrun).
Qed.

Lemma total_counts_submissions_witness :
  total (stats (after (limit 1) (burst ++ [Clear])))
  = Z.of_nat (submissions (burst ++ [Clear])).
Proof.
  apply (total_counts_submissions (limit 1) (burst ++ [Clear])).
  - reflexivity.
  - vm_compute. reflexivity.
Defined.

(** X8. [clear] rejects the queued tasks without counting them: [failed]
    and [completed] stay as they are, so that afterwards [total] exceeds
    the sum of [completed], [failed], [running] and [pending] by the
    number of tasks that were cleared. *)
Theorem clear_does_not_count (config : Config) (evs : list Event)
    (st : State) :
  forallb keeps_counters evs = true ->
  run (constructor config) evs = Some st ->
  failed (stats (clear st)) = failed (stats st) /\
  completed (stats (clear st)) = completed (stats st) /\
  total (stats (clear st)) = total (stats st) /\
  total (stats (clear st))
  = completed (stats (clear st)) + failed (stats (clear st))
    + running (clear st) + pending (stats (clear st))
    + Z.of_nat (length (queue st)).
Proof.
  intros Hkeep Hrun.
  destruct (run_counters _ _ _ Hkeep Hrun) as [Hsum Hgap].
  unfold accounted, backlog_gap in *. simpl in *. lia.
Qed.

Lemma clear_does_not_count_witness :
  failed (stats (clear (after (limit 1) burst)))
  = failed (stats (after (limit 1) burst)) /\
  completed (stats (clear (after (limit 1) burst)))
  = completed (stats (after (limit 1) burst)) /\
  total (stats (clear (after (limit 1) burst)))
  = total (stats (after (limit 1) burst)) /\
  total (stats (clear (after (limit 1) burst)))
  = completed (stats (clear (after (limit 1) burst)))
    + failed (stats (clear (after (limit 1) burst)))
    + running (clear (after (limit 1) burst))
    + pending (stats (clear (after (limit 1) burst)))
    + Z.of_nat (length (queue (after (limit 1) burst))).
Proof.
  apply (clear_does_not_count (limit 1) burst).
  - reflexivity.
  - vm_compute. reflexivity.
Defined.

(** ** A task answered twice by the scheduler *)

Lemma processQueue_from_tallies q st :
  completed (stats (processQueue_from q st)) = completed (stats st) /\
  failed (stats st) <= failed (stats (processQueue_from q st)).
Proof.
  apply (processQueue_from_cases (fun q st st' =>
    completed (stats st') = completed (stats st) /\
    failed (stats st) <= failed (stats st'))); clear; simpl; intros; lia.
Qed.

(** A started task is not touched by later calls of [processQueue]. *)
Lemma processQueue_keeps_started st i :
  well_formed st -> i ∈ timers st \/ i ∈ awaiting st ->
  promises (processQueue st) !! i = promises st !! i /\
  (i ∈ awaiting (processQueue st) <-> i ∈ awaiting st).
Proof.
  intros [_ _ Hq _ _] Hi.
  destruct (processQueue_from_started (queue st) st)
    as (started & Heq & _ & Hp & _).
  apply Hp. intros (x & -> & Hx)%list_elem_of_fmap_1.
  rewrite Forall_forall in Hq.
  destruct (Hq x) as (_ & _ & ? & ?); [|tauto].
  rewrite Heq. apply elem_of_app. by left.
Qed.

(** X9. A task whose timer fires and whose operation completes afterwards
    is counted in [failed] and in [completed], and its slot is given back
    twice; the caller keeps the timeout error. *)
Theorem timed_out_task_counted_twice (config : Config) (st : State)
    (i : nat) (v : value) :
  reachable config st -> i ∈ timers st -> i ∈ awaiting st ->
  exists st1 st2,
    step st (TimeoutFires i) = Some st1 /\
    step st1 (TaskSettles i (inl v)) = Some st2 /\
    completed (stats st2) = completed (stats st) + 1 /\
    failed (stats st) + 1 <= failed (stats st2) /\
    promises st2 !! i = Some (Rejected Task_timeout) /\
    (queue st = [] ->
     failed (stats st2) = failed (stats st) + 1 /\
     running st2 = running st - 2).
Proof.
  intros Hreach Htimer Hawait.
  pose proof (reachable_well_formed _ _ Hreach) as Hwf.
  pose proof (on_timeout_well_formed i st Hwf Htimer) as Hwf1.
  destruct (processQueue_keeps_started (on_timeout i st) i Hwf1)
    as [Hp1 Ha1]; [by right|].
  destruct (processQueue_from_tallies (queue (on_timeout i st))
    (on_timeout i st)) as [Hc1 Hf1].
  fold (processQueue (on_timeout i st)) in Hc1, Hf1.
  change (completed (stats (on_timeout i st)))
    with (completed (stats st)) in Hc1.
  change (failed (stats (on_timeout i st)))
    with (failed (stats st) + 1) in Hf1.
  assert (queue st = [] ->
          processQueue (on_timeout i st) = set_queue [] (on_timeout i st))
    as Hidle1.
  { intros Hempty. unfold processQueue.
    change (queue (on_timeout i st)) with (queue st). by rewrite Hempty. }
  assert (promises (processQueue (on_timeout i st)) !! i
          = Some (Rejected Task_timeout)) as Hrej.
  { rewrite Hp1. simpl. apply lookup_settle_in_fresh.
    by destruct Hwf as [_ _ _ _ Hu]; apply Hu. }
  assert (i ∈ awaiting (processQueue (on_timeout i st))) as Hawait1
    by by apply Ha1.
  fold (timeout_callback i st) in Hc1, Hf1, Hrej, Hawait1, Hidle1.
  assert (step st (TimeoutFires i) = Some (timeout_callback i st)) as Hstep1.
  { simpl. by rewrite bool_decide_eq_true_2. }
  clear Hp1 Ha1 Hwf1.
  remember (timeout_callback i st) as st1 eqn:Hst1.
  assert (step st1 (TaskSettles i (inl v))
          = Some (await_continuation i (inl v) st1)) as Hstep2.
  { simpl. by rewrite bool_decide_eq_true_2. }
  destruct (processQueue_from_tallies
    (queue (after_await i (inl v) st1)) (after_await i (inl v) st1))
    as [Hc2 Hf2].
  fold (processQueue (after_await i (inl v) st1)) in Hc2, Hf2.
  fold (await_continuation i (inl v) st1) in Hc2, Hf2.
  change (completed (stats (after_await i (inl v) st1)))
    with (completed (stats st1) + 1) in Hc2.
  change (failed (stats (after_await i (inl v) st1)))
    with (failed (stats st1)) in Hf2.
  exists st1, (await_continuation i (inl v) st1).
  split_and!; try done; try lia.
  - by apply (step_keeps_outcome st1 (TaskSettles i (inl v))).
  - intros Hempty. rewrite (Hidle1 Hempty).
    unfold await_continuation, processQueue. simpl. lia.
Qed.

Lemma timed_out_task_counted_twice_witness :
  exists st1 st2,
    step one_running (TimeoutFires 0%nat) = Some st1 /\
    step st1 (TaskSettles 0%nat (inl undefined)) = Some st2 /\
    completed (stats st2) = completed (stats one_running) + 1 /\
    failed (stats one_running) + 1 <= failed (stats st2) /\
    promises st2 !! 0%nat = Some (Rejected Task_timeout) /\
    (queue one_running = [] ->
     failed (stats st2) = failed (stats one_running) + 1 /\
     running st2 = running one_running - 2).
Proof.
  apply (timed_out_task_counted_twice (limit 1) one_running 0%nat undefined).
  - exists [AddTask Awaits no_options]. vm_compute. reflexivity.
  - apply (bool_decide_unpack _). vm_compute. exact I.
  - apply (bool_decide_unpack _). vm_compute. exact I.
Defined.

(** X10. A timer that is still armed for a task whose operation is no
    longer awaited (it failed, or threw when it was called) finds the
    promise settled and leaves it as it is, but counts one more failure
    and gives the slot back once more. *)
Theorem late_timer_counts_again (config : Config) (st : State) (i : nat) :
  reachable config st -> i ∈ timers st -> i ∉ awaiting st ->
  exists st',
    step st (TimeoutFires i) = Some st' /\
    is_Some (promises st !! i) /\
    promises st' !! i = promises st !! i /\
    failed (stats st) + 1 <= failed (stats st') /\
    (queue st = [] ->
     failed (stats st') = failed (stats st) + 1 /\
     running st' = running st - 1).
Proof.
  intros Hreach Htimer Hnot.
  pose proof (reachable_well_formed _ _ Hreach) as Hwf.
  assert (is_Some (promises st !! i)) as [o Ho].
  { destruct (promises st !! i) as [o|] eqn:Ho; [by eexists|].
    exfalso.
    destruct (reachable_all_answered _ _ Hreach i) as [Hin|[Ha _]];
      [|done| |done].
    - destruct Hwf as [_ _ _ Hb _]. apply Hb. by left.
    - apply list_elem_of_fmap_1 in Hin as (x & -> & Hx).
      destruct Hwf as [_ _ Hq _ _]. rewrite Forall_forall in Hq.
      by destruct (Hq x Hx) as (_ & _ & ? & _). }
  exists (timeout_callback i st).
  destruct (processQueue_from_tallies (queue (on_timeout i st))
    (on_timeout i st)) as [_ Hf].
  fold (processQueue (on_timeout i st)) in Hf.
  fold (timeout_callback i st) in Hf. simpl in Hf.
  split_and!.
  - simpl. by rewrite bool_decide_eq_true_2.
  - by eexists.
  - rewrite Ho. apply (step_keeps_outcome st (TimeoutFires i)); [|done].
    simpl. by rewrite bool_decide_eq_true_2.
  - lia.
  - intros Hempty. unfold timeout_callback, processQueue.
    change (queue (on_timeout i st)) with (queue st). rewrite Hempty.
    simpl. lia.
Qed.

Lemma late_timer_counts_again_witness :
  exists st',
    step (after (limit 1) [AddTask (Throws "boom") no_options])
         (TimeoutFires 0%nat) = Some st' /\
    is_Some (promises (after (limit 1) [AddTask (Throws "boom") no_options])
               !! 0%nat) /\
    promises st' !! 0%nat
    = promises (after (limit 1) [AddTask (Throws "boom") no_options])
        !! 0%nat /\
    failed (stats (after (limit 1) [AddTask (Throws "boom") no_options])) + 1
    <= failed (stats st') /\
    (queue (after (limit 1) [AddTask (Throws "boom") no_options]) = [] ->
     failed (stats st')
     = failed (stats (after (limit 1) [AddTask (Throws "boom") no_options]))
       + 1 /\
     running st'
     = running (after (limit 1) [AddTask (Throws "boom") no_options]) - 1).
Proof.
  apply (late_timer_counts_again (limit 1)
           (after (limit 1) [AddTask (Throws "boom") no_options]) 0%nat).
  - exists [AddTask (Throws "boom") no_options]. vm_compute. reflexivity.
  - apply (bool_decide_unpack _). vm_compute. exact I.
  - apply (bool_decide_unpack _). vm_compute. exact I.
Defined.

(** ** Recommendations *)

(** X11. With a valid configuration the recommendation about a high
    backlog is never given: [getRecommendations] reads the snapshot's
    [pending], which is [running] and never exceeds the limit, let alone
    three times the limit. *)
Theorem backlog_never_recommended (config : Config) (st : State)
    (exceeds_tenth : Z -> Z -> bool) :
  valid_config config -> reachable config st ->
  Backlog_is_high ∉ getRecommendations exceeds_tenth st (getStats st).
Proof.
  intros Hcfg Hreach.
  pose proof (reachable_running _ _ Hcfg Hreach) as Hle.
  destruct Hreach as [evs Hrun].
  pose proof (run_concurrency _ _ _ Hrun) as Hc.
  pose proof (constructor_limit_positive _ Hcfg) as Hpos.
  unfold getRecommendations. simpl.
  destruct (Z.ltb_spec (concurrency st * 3) (running st)) as [Hlt|_]; [lia|].
  intros Hin. rewrite !elem_of_app in Hin.
  destruct Hin as [Hin|[Hin|Hin]].
  - destruct (exceeds_tenth _ _); [|by apply elem_of_nil in Hin].
    apply list_elem_of_singleton in Hin. discriminate.
  - by apply elem_of_nil in Hin.
  - destruct (_ && _); [|by apply elem_of_nil in Hin].
    apply list_elem_of_singleton in Hin. discriminate.
Qed.

Lemma backlog_never_recommended_witness :
  Backlog_is_high ∉
    getRecommendations (fun failed completed => completed <? failed * 10)
      (after (limit 1) burst) (getStats (after (limit 1) burst)).
Proof.
  apply (backlog_never_recommended (limit 1)).
  - unfold valid_config. simpl. lia.
  - exists burst. vm_compute. reflexivity.
Defined.

(** * Error responses *)

Import ErrorHandler.

Lemma prefix_app_r n s q :
  String.prefix n s = true -> String.prefix n (s ++ q)%string = true.
Proof.
  revert s. induction n as [|a n IH]; intros s;
    [by destruct (s ++ q)%string|].
  destruct s as [|b s]; [done|].
  change (String b s ++ q)%string with (String b (s ++ q)%string). simpl.
  destruct (Ascii.ascii_dec a b); [apply IH|done].
Qed.

Lemma includes_app_r n s q :
  includes n s = true -> includes n (s ++ q)%string = true.
Proof.
  induction s as [|b s IH]; simpl.
  - rewrite orb_false_r. intros Hp. destruct n; [|done].
    change ("" ++ q)%string with q. by destruct q.
  - intros [Hp|Hi]%orb_true_iff; apply orb_true_iff.
    + left. by apply (prefix_app_r n (String b s)).
    + right. by apply IH.
Qed.

Lemma includes_app_l n p s :
  includes n s = true -> includes n (p ++ s)%string = true.
Proof.
  intros Hs. induction p as [|b p IH]; [done|].
  change (String b p ++ s)%string with (String b (p ++ s)%string).
  simpl. rewrite IH. apply orb_true_r.
Qed.

Lemma processImage_error_tests m :
  includes "Invalid URL" (processImage_error m) = includes "Invalid URL" m /\
  includes "not found" (processImage_error m) = includes "not found" m /\
  includes "Image processing failed" (processImage_error m) = true.
Proof. unfold processImage_error. by cbn. Qed.

(** X12. However the image could not be fetched or decoded, the error that
    [processImage] throws is answered with INVALID_URL (400) when the
    message it wraps mentions an invalid URL or a host that was not found,
    and with IMAGE_PROCESSING_ERROR (422) otherwise; never with
    TIMEOUT_ERROR, not even for a download that timed out. *)
Theorem processImage_error_category (m : string) :
  let r := categorizeError (Some (processImage_error m)) in
  (type r, statusCode r)
  = (if includes "Invalid URL" m || includes "not found" m
     then ("INVALID_URL"%string, 400)
     else ("IMAGE_PROCESSING_ERROR"%string, 422)) /\
  type r <> "TIMEOUT_ERROR"%string.
Proof.
  change (categorizeError (Some (processImage_error m)))
    with (categorize (processImage_error m)).
  destruct (processImage_error_tests m) as (H1 & H2 & H3).
  unfold categorize. rewrite H1, H2, H3.
  by destruct (includes "Invalid URL" m || includes "not found" m).
Qed.

(** X13. The first test of [categorizeError] wins however a message is
    wrapped: if a message is answered with INVALID_URL, so is every
    message that contains it. *)
Theorem invalid_url_survives_wrapping (p m q : string) :
  type (categorizeError (Some m)) = "INVALID_URL"%string ->
  categorizeError (Some (p ++ m ++ q)%string) = categorizeError (Some m).
Proof.
  intros Htype.
  assert (includes "Invalid URL" m || includes "not found" m = true /\
          exists c m', m = String c m') as [Hm (c & m' & ->)].
  { destruct m as [|c m'].
    - by vm_compute in Htype.
    - split; [|by eauto].
      change (categorizeError (Some (String c m')))
        with (categorize (String c m')) in Htype.
      unfold categorize in Htype.
      destruct (includes "Invalid URL" (String c m')
                || includes "not found" (String c m')); [done|exfalso].
      revert Htype. repeat case_match; simpl; discriminate. }
  assert (exists c' w, (p ++ String c m' ++ q)%string = String c' w)
    as (c' & w & Hw).
  { destruct p; simpl; eauto. }
  assert (includes "Invalid URL" (String c' w)
          || includes "not found" (String c' w) = true) as Hw'.
  { rewrite <- Hw. apply orb_true_iff in Hm as [Hm|Hm];
      apply orb_true_iff; [left|right];
      by apply includes_app_l, includes_app_r. }
  rewrite Hw.
  change (categorizeError (Some (String c' w)))
    with (categorize (String c' w)).
  change (categorizeError (Some (String c m')))
    with (categorize (String c m')).
  unfold categorize. by rewrite Hw', Hm.
Qed.

Lemma invalid_url_survives_wrapping_witness :
  categorizeError
    (Some ("Image analysis failed: " ++ "model file not found" ++ "")%string)
  = categorizeError (Some "model file not found").
Proof.
  apply (invalid_url_survives_wrapping "Image analysis failed: "
           "model file not found" "").
  vm_compute. reflexivity.
Defined.

(** X14. What the client of the service sees when the scheduler gives up
    on its request: a task whose timer fires while it is awaited is
    rejected with an error that [categorizeError] answers with
    TIMEOUT_ERROR (408), and a task that [clear] removes from the queue
    with an error that it answers with INTERNAL_SERVER_ERROR (500). *)
Theorem scheduler_errors_status (config : Config) (st : State) :
  reachable config st ->
  (forall i, i ∈ timers st -> i ∈ awaiting st ->
     exists e,
       promises (timeout_callback i st) !! i = Some (Rejected e) /\
       type (categorizeError (Some e)) = "TIMEOUT_ERROR"%string /\
       statusCode (categorizeError (Some e)) = 408) /\
  (forall x, x ∈ queue st ->
     exists e,
       promises (clear st) !! item_id x = Some (Rejected e) /\
       type (categorizeError (Some e)) = "INTERNAL_SERVER_ERROR"%string /\
       statusCode (categorizeError (Some e)) = 500).
Proof.
  intros Hreach.
  pose proof (reachable_well_formed _ _ Hreach) as Hwf. split.
  - intros i Htimer Hawait. exists Task_timeout. split; [|by vm_compute].
    destruct (processQueue_keeps_started (on_timeout i st) i)
      as [Hp _]; [by apply on_timeout_well_formed|by right|].
    unfold timeout_callback. rewrite Hp. simpl.
    apply lookup_settle_in_fresh.
    by destruct Hwf as [_ _ _ _ Hu]; apply Hu.
  - intros x Hx. exists Queue_cleared. split; [|by vm_compute].
    destruct Hwf as [_ _ Hq _ _]. rewrite Forall_forall in Hq.
    destruct (Hq x Hx) as (_ & Hnone & _). simpl.
    apply reject_all_queued; [|done]. by apply list_elem_of_fmap_2.
Qed.

Lemma scheduler_errors_status_witness :
  (forall i, i ∈ timers (after (limit 1) burst) ->
     i ∈ awaiting (after (limit 1) burst) ->
     exists e,
       promises (timeout_callback i (after (limit 1) burst)) !! i
       = Some (Rejected e) /\
       type (categorizeError (Some e)) = "TIMEOUT_ERROR"%string /\
       statusCode (categorizeError (Some e)) = 408) /\
  (forall x, x ∈ queue (after (limit 1) burst) ->
     exists e,
       promises (clear (after (limit 1) burst)) !! item_id x
       = Some (Rejected e) /\
       type (categorizeError (Some e)) = "INTERNAL_SERVER_ERROR"%string /\
       statusCode (categorizeError (Some e)) = 500).
Proof.
  apply (scheduler_errors_status (limit 1) (after (limit 1) burst)).
  exists burst. vm_compute. reflexivity.
Defined.

(** * The most likely class *)

Import NSFWAnalyzer.

(** What the loop over the entries computes, from any starting point: it
    keeps the starting value when no entry is larger, and otherwise stops
    at the first entry that no other entry exceeds. *)
Lemma keep_larger_fold (p : Predictions) (best : option string * Q) :
  (foldl keep_larger best p = best /\
   Forall (fun e => (snd e <= snd best)%Q) p) \/
  (exists p1 c q p2,
     p = p1 ++ (c, q) :: p2 /\
     foldl keep_larger best p = (Some c, q) /\
     (snd best < q)%Q /\
     Forall (fun e => (snd e < q)%Q) p1 /\
     Forall (fun e => (snd e <= q)%Q) p2).
Proof.
  revert best. induction p as [|[c0 q0] p IH]; intros best; simpl.
  - left. by split.
  - assert (keep_larger best (c0, q0)
            = if Qlt_le_dec (snd best) q0 then (Some c0, q0) else best)
      as -> by done.
    destruct (Qlt_le_dec (snd best) q0) as [Hlt|Hle].
    + destruct (IH (Some c0, q0)) as [[Heq Hall]|(p1 & c & q & p2 & Hp & Hr & Hq & H1 & H2)].
      * right. exists [], c0, q0, p. simpl in *.
        split_and!; [done|done|done|constructor|done].
      * right. exists ((c0, q0) :: p1), c, q, p2. simpl in *. split_and!.
        -- by rewrite Hp.
        -- done.
        -- by eapply Qlt_trans.
        -- by constructor.
        -- done.
    + destruct (IH best) as [[Heq Hall]|(p1 & c & q & p2 & Hp & Hr & Hq & H1 & H2)].
      * left. split; [done|]. by constructor.
      * right. exists ((c0, q0) :: p1), c, q, p2. split_and!.
        -- by rewrite Hp.
        -- done.
        -- done.
        -- constructor; [|done]. simpl. by eapply Qle_lt_trans.
        -- done.
Qed.

(** X15. [getMostLikelyClassification] reports no class, with confidence
    0, when no probability is positive; otherwise it reports the first
    entry whose probability no other entry exceeds: the entries before it
    are strictly smaller, those after it are not larger. *)
Theorem most_likely_is_first_maximum (p : Predictions) :
  let r := getMostLikelyClassification p in
  (classification r = None /\ confidence r = 0%Q /\
   Forall (fun e => (snd e <= 0)%Q) p) \/
  (exists p1 c p2,
     p = p1 ++ (c, confidence r) :: p2 /\
     classification r = Some c /\
     (0 < confidence r)%Q /\
     Forall (fun e => (snd e < confidence r)%Q) p1 /\
     Forall (fun e => (snd e <= confidence r)%Q) p2).
Proof.
  unfold getMostLikelyClassification. simpl.
  destruct (keep_larger_fold p (None, 0%Q))
    as [[-> Hall]|(p1 & c & q & p2 & Hp & -> & Hq & H1 & H2)].
  - left. by split_and!.
  - right. exists p1, c, p2. by split_and!.
Qed.

(** X16. [assessSafety] says "safe" exactly when it sets [isSafe], and it
    does so only when the class it reports is Neutral or Drawing, with a
    probability that reaches the threshold and that no other class, in
    particular none of Porn, Sexy and Hentai, exceeds. *)
Theorem safe_only_when_top_class_is_safe (p : Predictions)
    (threshold : option Q) :
  let r := assessSafety p threshold in
  (isSafe r = true <-> assessment r = "safe"%string) /\
  (isSafe r = true ->
   exists c,
     mostLikelyCategory r = Some c /\
     (c = "Neutral"%string \/ c = "Drawing"%string) /\
     (c, safety_confidence r) ∈ p /\
     (default (1 # 2) threshold <= safety_confidence r)%Q /\
     Forall (fun e => (snd e <= safety_confidence r)%Q) p).
Proof.
  unfold assessSafety. simpl.
  set (best := foldl keep_larger (None, 0%Q) p).
  destruct (Qle_bool (default (1 # 2)%Q threshold) (snd best)) eqn:Hconf;
    simpl.
  - destruct (includes_category safeCategories (fst best)) eqn:Hsafe.
    + split; [done|]. intros _.
      destruct (keep_larger_fold p (None, 0%Q))
        as [[Heq Hall]|(p1 & c & q & p2 & Hp & Heq & Hq & H1 & H2)];
        fold best in Heq; rewrite Heq in Hsafe, Hconf |- *; simpl in *;
        [done|].
      exists c. apply bool_decide_eq_true in Hsafe.
      split_and!.
      * done.
      * unfold safeCategories in Hsafe. set_solver.
      * rewrite Hp. set_solver.
      * by apply Qle_bool_iff.
      * rewrite Hp. apply Forall_app. split.
        -- eapply Forall_impl; [exact H1|]. intros e. apply Qlt_le_weak.
        -- constructor; [apply Qle_refl|done].
    + split; [|done].
      split; [done|].
      by destruct (includes_category nsfwCategories (fst best)).
  - by split.
Qed.

(** * Delivery of a task's own result *)

Lemma processQueue_keeps_unqueued st i :
  i ∉ (item_id <$> queue st) ->
  promises (processQueue st) !! i = promises st !! i /\
  (i ∈ awaiting (processQueue st) <-> i ∈ awaiting st).
Proof.
  intros Hi.
  destruct (processQueue_from_started (queue st) st)
    as (started & Heq & _ & Hp & _).
  apply Hp. intros Hin. apply Hi. rewrite Heq, fmap_app.
  apply elem_of_app. by left.
Qed.

(** X17. When the operation of a started task settles before its timer
    has fired, the caller gets exactly what the operation gave: its value,
    or its own error, unchanged.  A value is counted in [completed] and
    disarms the timer; an error is counted in [failed] and leaves the
    timer armed. *)
Theorem result_is_delivered (config : Config) (st : State) (i : nat)
    (r : value + error) :
  reachable config st -> i ∈ awaiting st -> i ∈ timers st ->
  exists st',
    step st (TaskSettles i r) = Some st' /\
    (i ∉ awaiting st') /\
    match r with
    | inl v =>
        promises st' !! i = Some (Fulfilled v) /\
        completed (stats st') = completed (stats st) + 1 /\
        i ∉ timers st'
    | inr e =>
        promises st' !! i = Some (Rejected e) /\
        completed (stats st') = completed (stats st) /\
        failed (stats st) + 1 <= failed (stats st') /\
        i ∈ timers st'
    end.
Proof.
  intros Hreach Hawait Htimer.
  pose proof (reachable_well_formed _ _ Hreach) as Hwf.
  assert (i ∉ (item_id <$> queue (after_await i r st))) as Hnot.
  { assert (queue (after_await i r st) = queue st) as -> by by destruct r.
    intros (x & -> & Hx)%list_elem_of_fmap_1.
    destruct Hwf as [_ _ Hq _ _]. rewrite Forall_forall in Hq.
    by destruct (Hq x Hx) as (_ & _ & _ & ?). }
  assert (promises st !! i = None) as Hnone.
  { by destruct Hwf as [_ _ _ _ Hu]; apply Hu. }
  destruct (processQueue_keeps_unqueued _ _ Hnot) as [Hp Ha].
  destruct (processQueue_from_tallies (queue (after_await i r st))
    (after_await i r st)) as [Hc Hf].
  fold (processQueue (after_await i r st)) in Hc, Hf.
  fold (await_continuation i r st) in Hp, Ha, Hc, Hf.
  exists (await_continuation i r st). split_and!.
  - simpl. by rewrite bool_decide_eq_true_2.
  - rewrite Ha. destruct r; simpl; set_solver.
  - destruct r as [v|e].
    + split_and!.
      * rewrite Hp. simpl. by apply lookup_settle_in_fresh.
      * by rewrite Hc.
      * by apply completion_disarms_timer.
    + split_and!.
      * rewrite Hp. simpl. by apply lookup_settle_in_fresh.
      * by rewrite Hc.
      * etrans; [|exact Hf]. simpl. lia.
      * by apply failure_keeps_timer.
Qed.

Lemma result_is_delivered_witness :
  exists st',
    step one_running (TaskSettles 0%nat (inr "boom"%string)) = Some st' /\
    (0%nat ∉ awaiting st') /\
    promises st' !! 0%nat = Some (Rejected "boom") /\
    completed (stats st') = completed (stats one_running) /\
    failed (stats one_running) + 1 <= failed (stats st') /\
    0%nat ∈ timers st'.
Proof.
  apply (result_is_delivered (limit 1) one_running 0%nat
           (inr "boom"%string)).
  - exists [AddTask Awaits no_options]. vm_compute. reflexivity.
  - apply (bool_decide_unpack _). vm_compute. exact I.
  - apply (bool_decide_unpack _). vm_compute. exact I.
Defined.
